(** * mig: a shallow embedding of the migration engine (mig.go)

    The development follows the layout of the Go package:
    - [GoLib]: the few standard-library primitives mig.go relies on
      (int64 arithmetic, fmt's %d and %q, strings, strconv, filepath);
    - the SQL side: the version table, the statements mig.go sends and the
      failures a driver can report;
    - the registry ([Register], [versionFromFile], [sortedMigrations]);
    - the executor ([CurrentVersion], [SetVersion], [runTx], [upTo],
      [downTo], [Up], [Down], [ToVersion]);
    - the helpers of mig_test.go used to build concrete registries;
    - the properties. *)

From Stdlib Require Import ZArith List String Ascii Bool Lia.
From Stdlib Require Import DecimalString Permutation Sorted.
From Stdlib Require DecimalPos.
Import ListNotations.

Open Scope string_scope.
Open Scope list_scope.
Open Scope Z_scope.

(* ================================================================== *)
(** ** Go standard library primitives *)

Module GoLib.

(** int64: a mathematical integer reduced into [-2^63, 2^63). *)
Definition min_int64 : Z := - 2 ^ 63.
Definition max_int64 : Z := 2 ^ 63 - 1.      (* math.MaxInt64 *)

Definition wrap64 (z : Z) : Z := (z + 2 ^ 63) mod 2 ^ 64 - 2 ^ 63.

Definition is_int64 (z : Z) : Prop := min_int64 <= z <= max_int64.

(** fmt's %d verb on an int64. *)
Definition itoa (z : Z) : string := NilZero.string_of_int (Z.to_int z).

(** The double quote character, and fmt's %q verb for labels made of
    printable ASCII: the text between double quotes, with backslash and
    double quote escaped. *)
Definition dquote : ascii := ascii_of_nat 34.
Definition backslash : ascii := ascii_of_nat 92.

Fixpoint escape (s : string) : string :=
  match s with
  | EmptyString => EmptyString
  | String c s' =>
      if (Ascii.eqb c dquote || Ascii.eqb c backslash)%bool
      then String backslash (String c (escape s'))
      else String c (escape s')
  end.

Definition quote (s : string) : string :=
  String dquote (escape s ++ String dquote EmptyString)%string.

(** strings.HasSuffix: len(s) >= len(suffix) && s[len(s)-len(suffix):] == suffix *)
Definition HasSuffix (s suffix : string) : bool :=
  (length suffix <=? length s)%nat
  && String.eqb (substring (length s - length suffix) (length suffix) s) suffix.

(** strings.IndexRune for an ASCII rune: index of its first occurrence,
    or -1. *)
Fixpoint IndexRune_from (s : string) (c : ascii) (i : Z) : Z :=
  match s with
  | EmptyString => -1
  | String x s' => if Ascii.eqb x c then i else IndexRune_from s' c (i + 1)
  end.

Definition IndexRune (s : string) (c : ascii) : Z := IndexRune_from s c 0.

(** s[:idx] *)
Definition slice_to (s : string) (idx : Z) : string :=
  substring 0 (Z.to_nat idx) s.

(** strconv.ParseInt(s, 10, 64): an optional sign followed by one or more
    decimal digits, the value within int64. [None] stands for a non-nil
    error (syntax or range). *)
Definition digit_of (c : ascii) : option Z :=
  let n := Z.of_nat (nat_of_ascii c) in
  if ((48 <=? n) && (n <=? 57))%bool then Some (n - 48) else None.

Fixpoint parse_digits (s : string) (acc : Z) : option Z :=
  match s with
  | EmptyString => Some acc
  | String c s' =>
      match digit_of c with
      | Some d => parse_digits s' (10 * acc + d)
      | None => None
      end
  end.

Definition ParseUint (s : string) : option Z :=
  match s with
  | EmptyString => None
  | _ => match parse_digits s 0 with
         | Some un => if un <? 2 ^ 64 then Some un else None
         | None => None
         end
  end.

Definition ParseInt (s : string) : option Z :=
  match s with
  | EmptyString => None
  | String c rest =>
      let neg := Ascii.eqb c "-" in
      let body := if (Ascii.eqb c "+" || Ascii.eqb c "-")%bool then rest else s in
      match ParseUint body with
      | None => None
      | Some un =>
          let cutoff := 2 ^ 63 in
          if (negb neg && (cutoff <=? un))%bool then None
          else if (neg && (cutoff <? un))%bool then None
          else Some (if neg then - un else un)
      end
  end.

(** filepath.Base on a slash-separated path. *)
Fixpoint drop_slashes (l : list ascii) : list ascii :=
  match l with
  | c :: l' => if Ascii.eqb c "/" then drop_slashes l' else l
  | [] => []
  end.

Fixpoint take_element (l : list ascii) : list ascii :=
  match l with
  | c :: l' => if Ascii.eqb c "/" then [] else c :: take_element l'
  | [] => []
  end.

Definition Base (path : string) : string :=
  if String.eqb path "" then "."
  else
    let stripped := drop_slashes (rev (list_ascii_of_string path)) in
    let last := string_of_list_ascii (rev (take_element stripped)) in
    if String.eqb last "" then "/" else last.

(** fmt's %04d verb on an int64: the decimal digits padded with zeros to
    four characters, a minus sign counting as one of them. *)
Fixpoint zeros (n : nat) : string :=
  match n with
  | O => EmptyString
  | S n' => String "0" (zeros n')
  end.

Definition pad_zeros (width : nat) (digits : string) : string :=
  (zeros (width - length digits) ++ digits)%string.

Definition fmt04d (z : Z) : string :=
  if z <? 0 then String "-" (pad_zeros 3 (itoa (- z)))
  else pad_zeros 4 (itoa z).

End GoLib.

Import GoLib.

(* ================================================================== *)
(** ** The SQL side *)

(** A row of the version table: [version bigint, updated_at bigint]. *)
Record row : Type := mkRow { row_version : Z; updated_at : Z }.

(** What the engine answers to
    [SELECT version FROM t ORDER BY updated_at DESC]: the rows of the table,
    latest [updated_at] first. SQL leaves the order of rows with equal keys
    to the engine, so the engine is a parameter with the two laws of
    ORDER BY. *)
Class SqlEngine : Type := {
  order_by_updated_at_desc : list row -> list row;
  order_by_perm : forall t, Permutation t (order_by_updated_at_desc t);
  order_by_sorted : forall t,
    StronglySorted (fun a b => updated_at b <= updated_at a)
                   (order_by_updated_at_desc t)
}.

(** What the environment decides during one call of the package: the clock
    reading of time.Now().Unix() and, for each statement kind, whether the
    driver reports a failure (and its text). *)
Record Env : Type := mkEnv {
  now : Z;
  create_err : option string;      (* CREATE TABLE IF NOT EXISTS *)
  query_err : option string;       (* SELECT ... / Scan *)
  insert_err : option string;      (* INSERT INTO the version table *)
  begin_err : option string;       (* db.Begin *)
  rollback_err : option string;    (* tx.Rollback *)
  commit_err : option string       (* tx.Commit *)
}.


(** An environment without failures at clock reading [t]. *)
Definition quiet (t : Z) : Env := mkEnv t None None None None None None.

(** Invocations of migration functions, in the order they happen. This is
    instrumentation: it is kept outside the database and so is not undone by
    a rollback. *)
Inductive call : Type :=
| CallUp (v : Z)
| CallDown (v : Z).

Inductive direction : Type := Ascending | Descending.

(** Outcome of a function that may panic. *)
Inductive outcome (A : Type) : Type :=
| Returned (a : A)
| Panicked (msg : string).
Arguments Returned {A} a.
Arguments Panicked {A} msg.

(* ================================================================== *)
(** ** The package *)

Section Mig.

(** The application's tables, as reached through the [DB] interface. *)
Variable D : Type.

(** The package variable [tableName]. *)
Variable tableName : string.

Context {engine : SqlEngine}.

(** A database: the application's tables and the version table, which is
    absent until [setup] creates it. Rows are kept in insertion order. *)
Record Database : Type := mkDatabase {
  tables : D;
  vtable : option (list row)
}.

(** type MigrationFunc func(DB) error. A migration works on the
    application's tables through the handle it is given (the database or a
    transaction on it) and leaves the version table to the package; the
    result is the tables afterwards and the error, if any. A function that
    fails may still have changed the tables, as newMigrationFunc of
    mig_test.go does. *)
Definition MigrationFunc : Type := D -> D * option string.

Record migration : Type := mkMigration {
  version : Z;
  up : MigrationFunc;
  down : MigrationFunc;
  file : string
}.

(** *** Registry *)

Definition versionFromFile (file : string) : Z * option string :=
  if negb (HasSuffix file ".go") then
    (0, Some ("migration file " ++ file ++ " should have .go extension")%string)
  else
    let idx := IndexRune file "_" in
    let bad := (0, Some ("migration file name must be NUMBER_NAME.go, is " ++ file)%string) in
    if 0 <=? idx then
      match ParseInt (slice_to file idx) with
      | Some v => (v, None)
      | None => bad
      end
    else bad.

(** [Register up down], called from the source file [callerFile]
    (runtime.Caller(1)), on the registry [migrations]. A nil function is
    [None]. *)
Definition Register (up down : option MigrationFunc) (callerFile : string)
           (migrations : list migration) : outcome (list migration) :=
  match up, down with
  | Some up', Some down' =>
      let fname := Base callerFile in
      match versionFromFile fname with
      | (_, Some err) => Panicked err
      | (v, None) =>
          if v <? 0 then
            Panicked ("version " ++ itoa v ++ " in file " ++ quote fname
                      ++ " is not valid, it must be bigger than 0")
          else
            match find (fun m => version m =? v) migrations with
            | Some m =>
                Panicked ("migration with number " ++ itoa v
                          ++ " has already been registered in file " ++ file m)
            | None =>
                Returned (migrations ++ [mkMigration v up' down' fname])
            end
      end
  | _, _ => Panicked "migrations cannot be nil in register"
  end.

(** sort.Stable(byVersion(m)) on a copy: a stable insertion sort with
    Less(i, j) = m[i].version < m[j].version. *)
Fixpoint insert_byVersion (x : migration) (l : list migration) : list migration :=
  match l with
  | [] => [x]
  | y :: l' =>
      if version y <? version x then y :: insert_byVersion x l' else x :: l
  end.

Definition sortedMigrations (migrations : list migration) : list migration :=
  fold_right insert_byVersion [] migrations.

(** *** Version store *)

(** CREATE TABLE IF NOT EXISTS *)
Definition setup (env : Env) (db : Database) : Database * option string :=
  match create_err env with
  | Some e =>
      (db, Some ("unable to create table " ++ tableName ++ ": " ++ e)%string)
  | None =>
      match vtable db with
      | Some _ => (db, None)
      | None => (mkDatabase (tables db) (Some []), None)
      end
  end.

(** The first row of the ordered selection is scanned; no row is
    sql.ErrNoRows. The database is returned because [setup] may have
    created the table. *)
Definition CurrentVersion (env : Env) (db : Database)
  : Database * Z * option string :=
  match setup env db with
  | (db1, Some e) => (db1, 0, Some e)
  | (db1, None) =>
      match query_err env with
      | Some e =>
          (db1, 0, Some ("error checking current version: " ++ e)%string)
      | None =>
          match order_by_updated_at_desc
                  (match vtable db1 with Some t => t | None => [] end) with
          | [] => (db1, 0, None)
          | r :: _ => (db1, row_version r, None)
          end
      end
  end.

(** INSERT INTO t (version, updated_at) VALUES (v, now). The handle is the
    database or a transaction on it. An absent table is an engine error. *)
Definition SetVersion (env : Env) (h : Database) (v : Z)
  : Database * option string :=
  let wrapErr (e : string) :=
    ("error setting version of database to " ++ itoa v ++ ": " ++ e)%string in
  match insert_err env with
  | Some e => (h, Some (wrapErr e))
  | None =>
      match vtable h with
      | None => (h, Some (wrapErr ("no such table: " ++ tableName)%string))
      | Some t =>
          (mkDatabase (tables h) (Some (t ++ [mkRow v (now env)])), None)
      end
  end.

(** *** Executor *)

(** The variables a unit of work captures: the named result [newVersion]
    of upTo/downTo, and the record of invocations. *)
Record Locals : Type := mkLocals {
  newVersionVar : Z;
  invoked : list call
}.

(** func(DB) error, closing over [Locals]. *)
Definition UnitOfWork : Type :=
  Database -> Locals -> Database * Locals * option string.

Definition action (dir : direction) (m : migration) : MigrationFunc :=
  match dir with Ascending => up m | Descending => down m end.

Definition callOf (dir : direction) (v : Z) : call :=
  match dir with Ascending => CallUp v | Descending => CallDown v end.

Definition stepError (dir : direction) (v : Z) (cause : string) : string :=
  match dir with
  | Ascending => "error applying migration up " ++ itoa v ++ ": " ++ cause
  | Descending => "error applying migration down " ++ itoa v ++ ": " ++ cause
  end%string.

(** The loop of both units of work:
    for _, m := range pendingMigrations {
      newVersion = m.version
      if err := m.up(db) (resp. m.down(db)); err != nil { return ... } } *)
Fixpoint applyPending (dir : direction) (pending : list migration)
         (h : Database) (st : Locals) : Database * Locals * option string :=
  match pending with
  | [] => (h, st, None)
  | m :: rest =>
      let st1 := mkLocals (version m) (invoked st ++ [callOf dir (version m)]) in
      let '(d1, err) := action dir m (tables h) in
      let h1 := mkDatabase d1 (vtable h) in
      match err with
      | Some e => (h1, st1, Some (stepError dir (version m) e))
      | None => applyPending dir rest h1 st1
      end
  end.

(** The closure [fn] of upTo and downTo: the loop, then
    SetVersion(db, newVersion). *)
Definition unitOfWork (env : Env) (dir : direction)
           (pending : list migration) : UnitOfWork :=
  fun h st =>
    match applyPending dir pending h st with
    | (h1, st1, Some e) => (h1, st1, Some e)
    | (h1, st1, None) =>
        let '(h2, err) := SetVersion env h1 (newVersionVar st1) in
        (h2, st1, err)
    end.

(** runTx. A transaction works on a copy of the database that replaces it
    at a successful commit; otherwise the database keeps its state. *)
Definition runTx (env : Env) (db : Database) (fn : UnitOfWork) (st : Locals)
  : Database * Locals * option string :=
  match begin_err env with
  | Some e => (db, st, Some ("unable to start transaction: " ++ e)%string)
  | None =>
      match fn db st with
      | (_, st1, Some e) =>
          match rollback_err env with
          | Some e' => (db, st1, Some ("unable to rollback: " ++ e')%string)
          | None => (db, st1, Some ("transaction was rolled back: " ++ e)%string)
          end
      | (h1, st1, None) =>
          match commit_err env with
          | Some e' =>
              (db, st1, Some ("unable to commit transaction: " ++ e')%string)
          | None => (h1, st1, None)
          end
      end
  end.

(** The tail shared by upTo and downTo:
    if tx { return ..., runTx(db, fn) }; return ..., fn(db)
    with [newVersion] still at its zero value when [fn] starts. *)
Definition runUnit (env : Env) (tx : bool) (db : Database) (fn : UnitOfWork)
  : Database * Locals * option string :=
  if tx then runTx env db fn (mkLocals 0 []) else fn db (mkLocals 0 []).

(** The two messages the executor itself raises before any step runs. *)
Definition noWork : string := "no transactions to run".

Definition notFound (v : Z) : string :=
  "unable to find a migration with version " ++ itoa v.

(** What a call leaves behind and returns. *)
Record result : Type := mkResult {
  res_db : Database;
  res_calls : list call;
  res_old : Z;
  res_new : Z;
  res_err : option string
}.

Definition pendingUp (migrations : list migration) (oldVersion target : Z)
  : list migration :=
  filter (fun m => (oldVersion <? version m) && (version m <=? target))%bool
         (sortedMigrations migrations).

(** The loop of downTo walks the sorted registry from its last index. *)
Definition pendingDown (migrations : list migration) (oldVersion target : Z)
  : list migration :=
  filter (fun m => (version m <=? oldVersion) && (target <? version m))%bool
         (rev (sortedMigrations migrations)).

(** upTo and downTo return (newVersion, err); [res_old] repeats the
    argument. The result variable [newVersion] is read once the unit of
    work has returned, which is what TestUp and TestToVersion observe. *)
Definition upTo (env : Env) (migrations : list migration) (db : Database)
           (tx : bool) (oldVersion target : Z) : result :=
  match pendingUp migrations oldVersion target with
  | [] => mkResult db [] oldVersion 0 (Some noWork)
  | pendingMigrations =>
      let fn := unitOfWork env Ascending pendingMigrations in
      let '(db1, st, err) := runUnit env tx db fn in
      mkResult db1 (invoked st) oldVersion (newVersionVar st) err
  end.

Definition downTo (env : Env) (migrations : list migration) (db : Database)
           (tx : bool) (oldVersion target : Z) : result :=
  match pendingDown migrations oldVersion target with
  | [] => mkResult db [] oldVersion 0 (Some noWork)
  | pendingMigrations =>
      let fn := unitOfWork env Descending pendingMigrations in
      let '(db1, st, err) := runUnit env tx db fn in
      mkResult db1 (invoked st) oldVersion (wrap64 (newVersionVar st - 1)) err
  end.

Definition Up (env : Env) (migrations : list migration) (db : Database)
           (tx : bool) : result :=
  match CurrentVersion env db with
  | (db1, oldVersion, Some e) => mkResult db1 [] oldVersion 0 (Some e)
  | (db1, oldVersion, None) => upTo env migrations db1 tx oldVersion max_int64
  end.

Definition Down (env : Env) (migrations : list migration) (db : Database)
           (tx : bool) : result :=
  match CurrentVersion env db with
  | (db1, _, Some e) => mkResult db1 [] 0 0 (Some e)
  | (db1, oldVersion, None) =>
      downTo env migrations db1 tx oldVersion (wrap64 (oldVersion - 1))
  end.


Definition ToVersion (env : Env) (migrations : list migration) (db : Database)
           (tx : bool) (v : Z) : result :=
  match CurrentVersion env db with
  | (db1, oldVersion, Some e) => mkResult db1 [] oldVersion 0 (Some e)
  | (db1, oldVersion, None) =>
      if oldVersion =? v then mkResult db1 [] v v None
      else if existsb (fun m => version m =? v) migrations then
        if oldVersion <? v then upTo env migrations db1 tx oldVersion v
        else downTo env migrations db1 tx oldVersion v
      else mkResult db1 [] 0 0 (Some (notFound v))
  end.

(** *** util.go *)

(** What the database does with one statement sent through [DB.Exec]: the
    tables afterwards and the error, if any. *)
Variable exec : string -> D -> D * option string.

(** ExecAll: the statements in order, stopping at the first error, which
    is returned as it is. *)
Fixpoint ExecAll (stmts : list string) (d : D) : D * option string :=
  match stmts with
  | [] => (d, None)
  | stmt :: rest =>
      match exec stmt d with
      | (d1, Some err) => (d1, Some err)
      | (d1, None) => ExecAll rest d1
      end
  end.

(** DropAll: one DROP TABLE statement for each table, in order. *)
Fixpoint DropAll (tbls : list string) (d : D) : D * option string :=
  match tbls with
  | [] => (d, None)
  | t :: rest =>
      match exec ("DROP TABLE " ++ t) d with
      | (d1, Some err) => (d1, Some err)
      | (d1, None) => DropAll rest d1
      end
  end.

(** *** Vocabulary of the statements below *)

(** What [Register] maintains on the registry: versions are distinct, not
    negative and within int64, and every label ends in .go. *)
Definition registryOK (migrations : list migration) : Prop :=
  NoDup (map version migrations)
  /\ Forall (fun m => 0 <= version m <= max_int64
                      /\ HasSuffix (file m) ".go" = true) migrations.


(** The rows of the version table, none while the table is absent. *)
Definition rowsOf (db : Database) : list row :=
  match vtable db with Some t => t | None => [] end.

(** The database once the version table exists. *)
Definition withTable (db : Database) : Database :=
  mkDatabase (tables db) (Some (rowsOf db)).

(** The directional application and its pending set, by direction. *)
Definition pendingOf (dir : direction)
  : list migration -> Z -> Z -> list migration :=
  match dir with Ascending => pendingUp | Descending => pendingDown end.

Definition directional (dir : direction) (env : Env)
  : list migration -> Database -> bool -> Z -> Z -> result :=
  match dir with Ascending => upTo env | Descending => downTo env end.

(** The tables once the functions of [steps] have run in order from [d]. *)
Definition tablesAfter (dir : direction) (steps : list migration) (d : D) : D :=
  fold_left (fun d s => fst (action dir s d)) steps d.

(** Each function of [steps] returns no error on the tables that the
    functions before it produced from [d]. *)
Fixpoint allSucceed (dir : direction) (steps : list migration) (d : D) : Prop :=
  match steps with
  | [] => True
  | s :: rest =>
      snd (action dir s d) = None /\ allSucceed dir rest (fst (action dir s d))
  end.

(** The version [CurrentVersion] resolves when no statement fails. *)
Definition resolved (db : Database) : Z :=
  match order_by_updated_at_desc (rowsOf db) with
  | [] => 0
  | r :: _ => row_version r
  end.

End Mig.

Arguments mkDatabase {D} tables vtable.
Arguments tables {D} d.
Arguments vtable {D} d.
Arguments mkMigration {D} version up down file.
Arguments version {D} m.
Arguments up {D} m.
Arguments down {D} m.
Arguments file {D} m.
Arguments mkResult {D} res_db res_calls res_old res_new res_err.
Arguments res_db {D} r.
Arguments res_calls {D} r.
Arguments res_old {D} r.
Arguments res_new {D} r.
Arguments res_err {D} r.
Arguments Register {D} up down callerFile migrations.
Arguments sortedMigrations {D} migrations.
Arguments insert_byVersion {D} x l.
Arguments setup {D} tableName env db.
Arguments CurrentVersion {D} tableName {engine} env db.
Arguments SetVersion {D} tableName env h v.
Arguments action {D} dir m.
Arguments applyPending {D} dir pending h st.
Arguments unitOfWork {D} tableName env dir pending.
Arguments runTx {D} env db fn st.
Arguments runUnit {D} env tx db fn.
Arguments pendingUp {D} migrations oldVersion target.
Arguments pendingDown {D} migrations oldVersion target.
Arguments upTo {D} tableName env migrations db tx oldVersion target.
Arguments downTo {D} tableName env migrations db tx oldVersion target.
Arguments Up {D} tableName {engine} env migrations db tx.
Arguments Down {D} tableName {engine} env migrations db tx.
Arguments ToVersion {D} tableName {engine} env migrations db tx v.
Arguments rowsOf {D} db.
Arguments pendingOf {D} dir migrations oldVersion target : rename.
Arguments directional {D} tableName dir env migrations db tx oldVersion target : rename.
Arguments withTable {D} db.
Arguments resolved {D} {engine} db.
Arguments tablesAfter {D} dir steps d.
Arguments allSucceed {D} dir steps d.
Arguments ExecAll {D} exec stmts d.
Arguments DropAll {D} exec tbls d.
Arguments registryOK {D} migrations.

(* ================================================================== *)
(** ** Helpers of mig_test.go *)

(** The table [migrations_run (version, migration_type)] the test
    migrations write to, in insertion order. *)
Definition runLog : Type := list (Z * Z).

Definition migrationUp : Z := 0.
Definition migrationDown : Z := 1.

(** newMigrationFunc: insert a row into migrations_run, then return [err]. *)
Definition newMigrationFunc (version typ : Z) (err : option string)
  : MigrationFunc runLog :=
  fun d => (d ++ [(version, typ)], err).

Definition testMigration (j : Z) (err : option string) : migration runLog :=
  mkMigration j
    (newMigrationFunc j migrationUp err)
    (newMigrationFunc j migrationDown err)
    (itoa j ++ "_test.go").

(** generateMigrations(n): versions 1..n, every function succeeding. *)
Definition generateMigrations (n : nat) : list (migration runLog) :=
  map (fun i => testMigration (Z.of_nat i) None) (seq 1 n).

(** The registry of TestUp_ErrorMigration: version 2 fails in both
    directions. *)
Definition errorMigrations : list (migration runLog) :=
  [ testMigration 1 None; testMigration 2 (Some "err"); testMigration 3 None ].

(** emptyMigrationFunc *)
Definition emptyMigrationFunc : MigrationFunc runLog := fun d => (d, None).

(** The default value of the package variable [tableName]. *)
Definition defaultTableName : string := "__version".

(** A database on which nothing has run yet: initTest before [setup]. *)
Definition freshDB : Database runLog := mkDatabase [] None.

(** An engine that answers ORDER BY updated_at DESC with a stable sort:
    rows with the same [updated_at] come out in insertion order. *)
Fixpoint insert_desc (x : row) (l : list row) : list row :=
  match l with
  | [] => [x]
  | y :: l' =>
      if updated_at x <? updated_at y then y :: insert_desc x l' else x :: l
  end.

Definition stable_order_desc (t : list row) : list row :=
  fold_right insert_desc [] t.

(* ================================================================== *)
(** ** Create *)

(** The steps [Create] builds carry a version only; their functions are
    nil and never called, which a function without arguments to take
    stands for. *)
Definition nilFunc : MigrationFunc Empty_set :=
  fun d => match d with end.

(** What os.Stat reports on the migrations directory: it does not exist,
    it is a directory, it is something else, or another error (and then no
    FileInfo). *)
Inductive statResult : Type :=
| StatNotExist
| StatIsDir
| StatNotDir
| StatFailed.

(** The answers of the file system to the calls of [Create]. *)
Record FileSystem : Type := mkFileSystem {
  fs_abs : string -> option string;              (* filepath.Abs, None on error *)
  fs_stat : string -> statResult;                (* os.Stat(dir) *)
  fs_mkdir : string -> option string;            (* os.Mkdir(dir, 0755) *)
  fs_glob : string -> list string + string;      (* filepath.Glob(dir/*.go) *)
  fs_write : string -> string -> option string   (* ioutil.WriteFile(dir/filename) *)
}.

(** The version of the last step after
    [sort.Stable(byVersion(migrations))], 0 when no match gave a version. *)
Definition lastVersionOf (matches : list string) : Z :=
  let migrations :=
    flat_map (fun m => match versionFromFile m with
                       | (v, None) => [mkMigration v nilFunc nilFunc ""]
                       | (_, Some _) => []
                       end) matches in
  last (map version (sortedMigrations migrations)) 0.

(** fmt.Sprintf("%04d_%s.go", lastVersion+1, name) *)
Definition migrationFileName (lastVersion : Z) (name : string) : string :=
  (fmt04d (wrap64 (lastVersion + 1)) ++ "_" ++ name ++ ".go")%string.

(** [Create path name]: the file name and the error. Calling IsDir on the
    missing FileInfo of a failed Stat is a nil dereference. *)
Definition Create (fs : FileSystem) (path name : string)
  : outcome (string * option string) :=
  let path := if String.eqb path "" then "migrations" else path in
  match fs_abs fs path with
  | None =>
      Returned ("", Some ("unable to get absolute path of migrations dir: " ++ path)%string)
  | Some dir =>
      let write :=
        match fs_glob fs dir with
        | inr e =>
            Returned ("", Some ("unable to get list of migrations directory files: " ++ e)%string)
        | inl matches =>
            let filename := migrationFileName (lastVersionOf matches) name in
            match fs_write fs dir filename with
            | Some e =>
                Returned ("", Some ("unable to create migration file: " ++ e)%string)
            | None => Returned (filename, None)
            end
        end in
      match fs_stat fs dir with
      | StatNotExist =>
          match fs_mkdir fs dir with
          | Some e =>
              Returned ("", Some ("unable to create migrations directory at "
                                  ++ dir ++ ": " ++ e)%string)
          | None => write
          end
      | StatIsDir => write
      | StatNotDir =>
          Returned ("", Some ("migrations directory path " ++ dir
                              ++ " already exists but it's not a directory")%string)
      | StatFailed =>
          Panicked "runtime error: invalid memory address or nil pointer dereference"
      end
  end.

(** No path separator occurs in the string. *)
Fixpoint noSlash (s : string) : bool :=
  match s with
  | EmptyString => true
  | String c s' => negb (Ascii.eqb c "/") && noSlash s'
  end.

(** The directory of TestCreate's "create non-first migration": it exists
    and holds 0001_foo.go and 0002_foo.go; every call succeeds. *)
Definition testFS : FileSystem :=
  mkFileSystem
    (fun path => Some ("/tmp/test-mig/" ++ path)%string)
    (fun _ => StatIsDir)
    (fun _ => None)
    (fun _ => inl ["/tmp/test-mig/dir/0001_foo.go"; "/tmp/test-mig/dir/0002_foo.go"])
    (fun _ _ => None).

(** A database that keeps the statements it executed and rejects the
    statement BAD. *)
Definition logExec (stmt : string) (d : list string) : list string * option string :=
  if String.eqb stmt "BAD" then (d, Some "syntax error") else (d ++ [stmt], None).

(* ================================================================== *)
(** ** Properties *)

(** *** The stable engine satisfies the laws of ORDER BY *)

Lemma insert_desc_perm (x : row) (l : list row) :
  Permutation (x :: l) (insert_desc x l).
Proof.
  induction l as [| y l IH]; simpl.
  - apply Permutation_refl.
  - destruct (updated_at x <? updated_at y).
    + apply perm_trans with (y :: x :: l).
      * apply perm_swap.
      * apply perm_skip. exact IH.
    + apply Permutation_refl.
Qed.

Lemma stable_order_desc_perm (t : list row) :
  Permutation t (stable_order_desc t).
Proof.
  induction t as [| x t IH]; simpl.
  - apply perm_nil.
  - apply perm_trans with (x :: stable_order_desc t).
    + apply perm_skip. exact IH.
    + apply insert_desc_perm.
Qed.

Lemma insert_desc_sorted (x : row) (l : list row) :
  StronglySorted (fun a b => updated_at b <= updated_at a) l ->
  StronglySorted (fun a b => updated_at b <= updated_at a) (insert_desc x l).
Proof.
  induction 1 as [| y l Hs IH Hall]; simpl.
  - constructor; constructor.
  - destruct (updated_at x <? updated_at y) eqn:E.
    + apply Z.ltb_lt in E.
      constructor; [exact IH |].
      apply Forall_forall. intros z Hz.
      apply (Permutation_in _ (Permutation_sym (insert_desc_perm x l))) in Hz.
      destruct Hz as [<- | Hz]; [lia |].
      rewrite Forall_forall in Hall. now apply Hall.
    + apply Z.ltb_ge in E.
      constructor.
      * constructor; assumption.
      * constructor; [exact E |].
        rewrite Forall_forall in Hall |- *.
        intros z Hz. specialize (Hall z Hz). lia.
Qed.

Lemma stable_order_desc_sorted (t : list row) :
  StronglySorted (fun a b => updated_at b <= updated_at a) (stable_order_desc t).
Proof.
  induction t as [| x t IH]; simpl.
  - constructor.
  - apply insert_desc_sorted. exact IH.
Qed.

Definition stable_engine : SqlEngine :=
  {| order_by_updated_at_desc := stable_order_desc;
     order_by_perm := stable_order_desc_perm;
     order_by_sorted := stable_order_desc_sorted |}.

Section Properties.

Variable D : Type.
Variable tableName : string.
Context {engine : SqlEngine}.

Implicit Types (db h : Database D) (m : migration D) (env : Env).
Implicit Types (migrations pending : list (migration D)).

(** *** Version store *)

Lemma setup_ok env db :
  create_err env = None -> setup tableName env db = (withTable db, None).
Proof.
  intros Hc. unfold setup, withTable, rowsOf. rewrite Hc.
  destruct db as [d [t |]]; reflexivity.
Qed.

Lemma withTable_idem db : withTable (withTable db) = withTable db.
Proof. reflexivity. Qed.

(** The head of the ordered selection carries the latest timestamp. *)
Lemma order_by_head (t : list row) (r : row) (rest : list row) :
  order_by_updated_at_desc t = r :: rest ->
  In r t /\ forall r', In r' t -> updated_at r' <= updated_at r.
Proof.
  intros Heq.
  pose proof (order_by_perm t) as Hp.
  pose proof (order_by_sorted t) as Hs.
  rewrite Heq in Hp, Hs.
  split.
  - apply (Permutation_in _ (Permutation_sym Hp)). now left.
  - intros r' Hin.
    apply (Permutation_in _ Hp) in Hin.
    destruct Hin as [<- | Hin]; [lia |].
    apply StronglySorted_inv in Hs. destruct Hs as [_ Hall].
    rewrite Forall_forall in Hall. now apply Hall.
Qed.

Lemma order_by_nil_iff (t : list row) :
  order_by_updated_at_desc t = [] <-> t = [].
Proof.
  split; intros H.
  - pose proof (order_by_perm t) as Hp. rewrite H in Hp.
    now apply Permutation_sym, Permutation_nil in Hp.
  - subst t. pose proof (order_by_perm []) as Hp.
    now apply Permutation_nil in Hp.
Qed.

Lemma CurrentVersion_ok env db :
  create_err env = None -> query_err env = None ->
  CurrentVersion tableName env db = (withTable db, resolved db, None).
Proof.
  intros Hc Hq. unfold CurrentVersion, resolved.
  rewrite (setup_ok _ _ Hc), Hq.
  change (vtable (withTable db)) with (Some (rowsOf db)).
  destruct (order_by_updated_at_desc (rowsOf db)); reflexivity.
Qed.

(** A successful [CurrentVersion] changes nothing but the existence of the
    version table. *)
Lemma CurrentVersion_inv env db db1 v :
  CurrentVersion tableName env db = (db1, v, None) ->
  db1 = withTable db /\ v = resolved db.
Proof.
  unfold CurrentVersion, setup, resolved.
  destruct (create_err env) as [e |]; [discriminate |].
  assert (Hw : (match vtable db with
                | Some _ => (db, @None string)
                | None => (mkDatabase (tables db) (Some []), None)
                end) = (withTable db, None)).
  { unfold withTable, rowsOf. destruct db as [d [t |]]; reflexivity. }
  rewrite Hw.
  destruct (query_err env) as [e |]; [discriminate |].
  change (vtable (withTable db)) with (Some (rowsOf db)).
  destruct (order_by_updated_at_desc (rowsOf db));
    intros H; inversion H; subst; auto.
Qed.

(** C6. [CurrentVersion] answers with the version of a record carrying the
    latest [updated_at] (the one such record when it is unique), whatever
    the versions stored, and with 0 and no error when the table holds no
    record or does not exist yet; for instance 2 on the records
    (version 3, time 1), (version 2, time 2). *)
Theorem CurrentVersion_latest_record env db :
  create_err env = None -> query_err env = None ->
  exists v,
    CurrentVersion tableName env db = (withTable db, v, None)
    /\ (rowsOf db = [] -> v = 0)
    /\ (rowsOf db <> [] ->
        exists r, In r (rowsOf db) /\ v = row_version r
                  /\ forall r', In r' (rowsOf db) -> updated_at r' <= updated_at r)
    /\ (forall r, In r (rowsOf db) ->
          (forall r', In r' (rowsOf db) -> r' = r \/ updated_at r' < updated_at r) ->
          v = row_version r)
    /\ (forall d : D,
          CurrentVersion tableName env
            (mkDatabase d (Some [mkRow 3 1; mkRow 2 2]))
          = (mkDatabase d (Some [mkRow 3 1; mkRow 2 2]), 2, None)).
Proof.
  intros Hc Hq.
  assert (Huniq : forall db0 r, In r (rowsOf db0) ->
            (forall r', In r' (rowsOf db0) -> r' = r \/ updated_at r' < updated_at r) ->
            resolved db0 = row_version r).
  { intros db0 r Hin Hlt. unfold resolved.
    destruct (order_by_updated_at_desc (rowsOf db0)) as [| r0 rest] eqn:E.
    - apply (proj1 (order_by_nil_iff _)) in E. rewrite E in Hin. contradiction.
    - apply order_by_head in E. destruct E as [Hin0 Hmax].
      destruct (Hlt r0 Hin0) as [-> | Hlt0]; [reflexivity |].
      specialize (Hmax r Hin). lia. }
  exists (resolved db). split; [now apply CurrentVersion_ok |].
  split; [| split; [| split]].
  - intros Hnil. unfold resolved. rewrite Hnil.
    now rewrite (proj2 (order_by_nil_iff []) eq_refl).
  - intros Hne. unfold resolved.
    destruct (order_by_updated_at_desc (rowsOf db)) as [| r0 rest] eqn:E.
    + apply (proj1 (order_by_nil_iff _)) in E. contradiction.
    + apply order_by_head in E. destruct E as [Hin0 Hmax].
      exists r0. auto.
  - apply Huniq.
  - intros d. rewrite (CurrentVersion_ok _ _ Hc Hq).
    unfold withTable, rowsOf. simpl. repeat f_equal.
    apply (Huniq (mkDatabase d (Some [mkRow 3 1; mkRow 2 2])) (mkRow 2 2)).
    + simpl. auto.
    + simpl. intros r' [<- | [<- | []]]; simpl; [right; lia | now left].
Qed.

(** *** The sorted view of the registry *)

Lemma insert_byVersion_perm m (l : list (migration D)) :
  Permutation (m :: l) (insert_byVersion m l).
Proof.
  induction l as [| y l IH]; simpl.
  - apply Permutation_refl.
  - destruct (version y <? version m).
    + apply perm_trans with (y :: m :: l).
      * apply perm_swap.
      * apply perm_skip. exact IH.
    + apply Permutation_refl.
Qed.

Lemma sortedMigrations_perm migrations :
  Permutation migrations (sortedMigrations migrations).
Proof.
  induction migrations as [| m l IH]; simpl.
  - apply perm_nil.
  - apply perm_trans with (m :: sortedMigrations l).
    + apply perm_skip. exact IH.
    + apply insert_byVersion_perm.
Qed.

Lemma insert_byVersion_sorted m (l : list (migration D)) :
  StronglySorted (fun a b => version a <= version b) l ->
  StronglySorted (fun a b => version a <= version b) (insert_byVersion m l).
Proof.
  induction 1 as [| y l Hs IH Hall]; simpl.
  - constructor; constructor.
  - destruct (version y <? version m) eqn:E.
    + apply Z.ltb_lt in E.
      constructor; [exact IH |].
      apply Forall_forall. intros z Hz.
      apply (Permutation_in _ (Permutation_sym (insert_byVersion_perm m l))) in Hz.
      destruct Hz as [<- | Hz]; [lia |].
      rewrite Forall_forall in Hall. now apply Hall.
    + apply Z.ltb_ge in E.
      constructor.
      * constructor; assumption.
      * constructor; [exact E |].
        rewrite Forall_forall in Hall |- *.
        intros z Hz. specialize (Hall z Hz). lia.
Qed.

Lemma sortedMigrations_sorted migrations :
  StronglySorted (fun a b => version a <= version b) (sortedMigrations migrations).
Proof.
  induction migrations as [| m l IH]; simpl.
  - constructor.
  - apply insert_byVersion_sorted. exact IH.
Qed.

(** *** The loop over the pending steps *)

Lemma last_cons_default (a : Z) (l : list Z) (d : Z) :
  last (a :: l) d = last l a.
Proof.
  revert a d. induction l as [| b l IH]; intros a d.
  - reflexivity.
  - change (last (a :: b :: l) d) with (last (b :: l) d).
    now rewrite !IH.
Qed.

Lemma applyPending_app dir pre post h st :
  applyPending dir (pre ++ post) h st =
  match applyPending dir pre h st with
  | (h1, st1, None) => applyPending dir post h1 st1
  | failed => failed
  end.
Proof.
  revert h st. induction pre as [| m pre IH]; intros h st; simpl.
  - reflexivity.
  - destruct (action dir m (tables h)) as [d1 [e |]]; [reflexivity |].
    apply IH.
Qed.

Lemma applyPending_vtable dir pending h st h1 st1 err :
  applyPending dir pending h st = (h1, st1, err) -> vtable h1 = vtable h.
Proof.
  revert h st. induction pending as [| m pending IH]; intros h st; simpl.
  - intros H; inversion H; reflexivity.
  - destruct (action dir m (tables h)) as [d1 [e |]].
    + intros H; inversion H; reflexivity.
    + intros H. apply IH in H. exact H.
Qed.

Lemma applyPending_error dir pending h st h1 st1 e :
  applyPending dir pending h st = (h1, st1, Some e) ->
  exists v cause, e = stepError dir v cause.
Proof.
  revert h st. induction pending as [| m pending IH]; intros h st; simpl.
  - discriminate.
  - destruct (action dir m (tables h)) as [d1 [e1 |]].
    + intros H; inversion H; eauto.
    + apply IH.
Qed.

(** The k-th step fails after the k-1 steps before it succeeded. *)
Lemma applyPending_fails dir pre m post h st h1 st1 dk cause :
  applyPending dir pre h st = (h1, st1, None) ->
  action dir m (tables h1) = (dk, Some cause) ->
  applyPending dir (pre ++ m :: post) h st =
  (mkDatabase dk (vtable h),
   mkLocals (version m) (invoked st1 ++ [callOf dir (version m)]),
   Some (stepError dir (version m) cause)).
Proof.
  intros Hpre Hm. rewrite applyPending_app, Hpre. simpl. rewrite Hm.
  now rewrite (applyPending_vtable _ _ _ _ _ _ _ Hpre).
Qed.


(** *** Units of work and transactions *)

Lemma unitOfWork_fails env dir pre m post h st h1 st1 dk cause :
  applyPending dir pre h st = (h1, st1, None) ->
  action dir m (tables h1) = (dk, Some cause) ->
  unitOfWork tableName env dir (pre ++ m :: post) h st =
  (mkDatabase dk (vtable h),
   mkLocals (version m) (invoked st1 ++ [callOf dir (version m)]),
   Some (stepError dir (version m) cause)).
Proof.
  intros Hpre Hm. unfold unitOfWork.
  now rewrite (applyPending_fails _ _ _ post _ _ _ _ _ _ Hpre Hm).
Qed.

Lemma runTx_fn_fails env db (fn : UnitOfWork D) st h1 st1 e :
  begin_err env = None ->
  fn db st = (h1, st1, Some e) ->
  runTx env db fn st =
  (db, st1,
   Some match rollback_err env with
        | Some e' => "unable to rollback: " ++ e'
        | None => "transaction was rolled back: " ++ e
        end%string).
Proof.
  intros Hb Hfn. unfold runTx. rewrite Hb, Hfn.
  destruct (rollback_err env); reflexivity.
Qed.

(** A transaction that ends in an error leaves the database as it was. *)
Lemma runTx_error_keeps_db env db (fn : UnitOfWork D) st db1 st1 e :
  runTx env db fn st = (db1, st1, Some e) -> db1 = db.
Proof.
  unfold runTx.
  destruct (begin_err env); [intros H; inversion H; reflexivity |].
  destruct (fn db st) as [[h2 st2] [e2 |]].
  - destruct (rollback_err env); intros H; inversion H; reflexivity.
  - destruct (commit_err env); intros H; inversion H; reflexivity.
Qed.

Lemma directional_nonempty dir env migrations db tx oldVersion target pending :
  pendingOf dir migrations oldVersion target = pending ->
  pending <> [] ->
  directional tableName dir env migrations db tx oldVersion target =
  match runUnit env tx db (unitOfWork tableName env dir pending) with
  | (db1, st, err) =>
      mkResult db1 (invoked st) oldVersion
        match dir with
        | Ascending => newVersionVar st
        | Descending => wrap64 (newVersionVar st - 1)
        end err
  end.
Proof.
  intros Hp Hne. destruct dir; simpl in Hp |- *.
  - unfold upTo. rewrite Hp. destruct pending; [contradiction | reflexivity].
  - unfold downTo. rewrite Hp. destruct pending; [contradiction | reflexivity].
Qed.

Lemma directional_empty dir env migrations db tx oldVersion target :
  pendingOf dir migrations oldVersion target = [] ->
  directional tableName dir env migrations db tx oldVersion target =
  mkResult db [] oldVersion 0 (Some noWork).
Proof.
  intros Hp. destruct dir; simpl in Hp |- *.
  - unfold upTo. now rewrite Hp.
  - unfold downTo. now rewrite Hp.
Qed.

Lemma app_cons_not_nil (A : Type) (pre : list A) (x : A) (post : list A) :
  pre ++ x :: post <> [].
Proof. destruct pre; discriminate. Qed.

(** C3. In a transaction, when the k-th pending step fails (after the
    k-1 steps before it succeeded), upTo and downTo return an error and
    the database is exactly the one they were given: no row is added to
    the version table and the tables are those before the call, whatever
    the steps did and whether or not the rollback itself reports a
    failure. The version table itself was created beforehand, by
    CurrentVersion. *)
Theorem tx_step_failure_rolls_back
        dir env migrations db oldVersion target pre m post h1 st1 dk cause :
  pendingOf dir migrations oldVersion target = pre ++ m :: post ->
  applyPending dir pre db (mkLocals 0 []) = (h1, st1, None) ->
  action dir m (tables h1) = (dk, Some cause) ->
  let r := directional tableName dir env migrations db true oldVersion target in
  (exists e, res_err r = Some e)
  /\ res_db r = db
  /\ vtable (res_db r) = vtable db
  /\ tables (res_db r) = tables db.
Proof.
  intros Hp Hpre Hm r.
  assert (Hr : (exists e, res_err r = Some e) /\ res_db r = db).
  { subst r.
    rewrite (directional_nonempty _ _ _ _ _ _ _ _ Hp (app_cons_not_nil _ _ _ _)).
    unfold runUnit.
    destruct (begin_err env) as [eb |] eqn:Hb.
    - unfold runTx. rewrite Hb. simpl. eauto.
    - rewrite (runTx_fn_fails _ _ _ _ _ _ _ Hb
                 (unitOfWork_fails env _ _ _ post _ _ _ _ _ _ Hpre Hm)).
      simpl. eauto. }
  destruct Hr as [He Hdb]. rewrite Hdb. auto.
Qed.

Lemma applyPending_allSucceed dir pre h st :
  allSucceed dir pre (tables h) ->
  applyPending dir pre h st =
  (mkDatabase (tablesAfter dir pre (tables h)) (vtable h),
   mkLocals (last (map version pre) (newVersionVar st))
            (invoked st ++ map (fun s => callOf dir (version s)) pre),
   None).
Proof.
  revert h st. induction pre as [| s pre IH]; intros h st Hok.
  - simpl. rewrite app_nil_r. destruct h, st; reflexivity.
  - cbn [allSucceed] in Hok. destruct Hok as [Hs Hrest].
    cbn [applyPending].
    destruct (action dir s (tables h)) as [d1 e] eqn:E.
    cbn [fst snd] in Hs, Hrest. subst e.
    rewrite IH by exact Hrest.
    cbn [tables vtable newVersionVar invoked map].
    unfold tablesAfter. cbn [fold_left]. rewrite E. cbn [fst].
    rewrite <- app_assoc. cbn [app].
    now rewrite last_cons_default.
Qed.

(** C4. Outside a transaction, when the steps 1..k-1 of the pending set
    succeed one after the other and step k fails, upTo and downTo leave the
    tables as the functions of steps 1..k-1 produced them in order,
    followed by whatever the failing function itself did to them: nothing
    is undone. The functions invoked are those of steps 1..k, in order;
    the version table is as it was; the error names the version of step k
    and ends with the cause. *)
Theorem no_tx_step_failure_keeps_prefix
        dir env migrations db oldVersion target pre m post cause :
  pendingOf dir migrations oldVersion target = pre ++ m :: post ->
  allSucceed dir pre (tables db) ->
  snd (action dir m (tablesAfter dir pre (tables db))) = Some cause ->
  let r := directional tableName dir env migrations db false oldVersion target in
  res_err r = Some (match dir with
                    | Ascending => "error applying migration up "
                    | Descending => "error applying migration down "
                    end ++ itoa (version m) ++ ": " ++ cause)%string
  /\ tables (res_db r)
     = fst (action dir m
              (fold_left (fun d s => fst (action dir s d)) pre (tables db)))
  /\ vtable (res_db r) = vtable db
  /\ res_calls r
     = map (fun s => callOf dir (version s)) pre ++ [callOf dir (version m)].
Proof.
  intros Hp Hpre Hm r. subst r.
  rewrite (directional_nonempty _ _ _ _ _ _ _ _ Hp (app_cons_not_nil _ _ _ _)).
  unfold runUnit.
  assert (Ha : action dir m (tables (mkDatabase (tablesAfter dir pre (tables db))
                                                (vtable db)))
               = (fst (action dir m (tablesAfter dir pre (tables db))), Some cause)).
  { cbn [tables]. rewrite <- Hm. apply surjective_pairing. }
  rewrite (unitOfWork_fails env _ _ _ post _ _ _ _ _ _
             (applyPending_allSucceed dir pre db (mkLocals 0 []) Hpre) Ha).
  cbn [res_err res_db res_calls tables vtable invoked app].
  unfold tablesAfter. repeat split; auto.
  destruct dir; reflexivity.
Qed.

(** C8 as the code has it. When the k-th pending step fails (outside a
    transaction, or in one that could begin), the version returned with
    the error is the one being attempted: the version of the failing step
    k in ascending application, and that version minus one in descending
    application. *)
Theorem step_failure_reports_attempted_version
        dir env migrations db tx oldVersion target pre m post h1 st1 dk cause :
  pendingOf dir migrations oldVersion target = pre ++ m :: post ->
  applyPending dir pre db (mkLocals 0 []) = (h1, st1, None) ->
  action dir m (tables h1) = (dk, Some cause) ->
  (tx = true -> begin_err env = None) ->
  let r := directional tableName dir env migrations db tx oldVersion target in
  (exists e, res_err r = Some e)
  /\ res_new r = match dir with
                 | Ascending => version m
                 | Descending => wrap64 (version m - 1)
                 end.
Proof.
  intros Hp Hpre Hm Hb r. subst r.
  rewrite (directional_nonempty _ _ _ _ _ _ _ _ Hp (app_cons_not_nil _ _ _ _)).
  unfold runUnit. destruct tx.
  - rewrite (runTx_fn_fails _ _ _ _ _ _ _ (Hb eq_refl)
               (unitOfWork_fails env _ _ _ post _ _ _ _ _ _ Hpre Hm)).
    simpl. split; [eauto | destruct dir; reflexivity].
  - rewrite (unitOfWork_fails env _ _ _ post _ _ _ _ _ _ Hpre Hm).
    simpl. split; [eauto | destruct dir; reflexivity].
Qed.

(** C9. In a transaction that could begin, when the k-th pending step
    fails and the rollback fails too, the error returned is the rollback
    failure alone: it is built from the rollback's error text and does not
    mention the step's error. The database is left as it was. *)
Theorem rollback_failure_supersedes_step_error
        dir env migrations db oldVersion target pre m post h1 st1 dk cause e' :
  pendingOf dir migrations oldVersion target = pre ++ m :: post ->
  applyPending dir pre db (mkLocals 0 []) = (h1, st1, None) ->
  action dir m (tables h1) = (dk, Some cause) ->
  begin_err env = None ->
  rollback_err env = Some e' ->
  let r := directional tableName dir env migrations db true oldVersion target in
  res_err r = Some ("unable to rollback: " ++ e')%string
  /\ res_db r = db.
Proof.
  intros Hp Hpre Hm Hb Hr r. subst r.
  rewrite (directional_nonempty _ _ _ _ _ _ _ _ Hp (app_cons_not_nil _ _ _ _)).
  unfold runUnit.
  rewrite (runTx_fn_fails _ _ _ _ _ _ _ Hb
             (unitOfWork_fails env _ _ _ post _ _ _ _ _ _ Hpre Hm)).
  rewrite Hr. simpl. auto.
Qed.

(** *** NoWork and NotFound *)

(** Two messages that start with different literal texts differ. *)
Ltac other_message :=
  unfold noWork, notFound, stepError; simpl; discriminate.

Lemma noWork_not_notFound (v : Z) : noWork <> notFound v.
Proof. other_message. Qed.

Lemma stepError_not_notFound dir (w : Z) (cause : string) (v : Z) :
  stepError dir w cause <> notFound v.
Proof. destruct dir; other_message. Qed.

Lemma unitOfWork_not_notFound env dir pending h st h1 st1 e (v : Z) :
  unitOfWork tableName env dir pending h st = (h1, st1, Some e) ->
  e <> notFound v.
Proof.
  unfold unitOfWork.
  destruct (applyPending dir pending h st) as [[h2 st2] [e2 |]] eqn:E.
  - intros H; inversion H; subst.
    destruct (applyPending_error _ _ _ _ _ _ _ E) as (w & cause & ->).
    apply stepError_not_notFound.
  - unfold SetVersion.
    destruct (insert_err env); [| destruct (vtable h2)];
      intros H; inversion H; subst; other_message.
Qed.

Lemma runUnit_not_notFound env tx db dir pending db1 st1 e (v : Z) :
  runUnit env tx db (unitOfWork tableName env dir pending) = (db1, st1, Some e) ->
  e <> notFound v.
Proof.
  unfold runUnit. destruct tx.
  - unfold runTx.
    destruct (begin_err env);
      [intros H; inversion H; other_message |].
    destruct (unitOfWork tableName env dir pending db (mkLocals 0 []))
      as [[h2 st2] [e2 |]].
    + destruct (rollback_err env);
        intros H; inversion H; other_message.
    + destruct (commit_err env);
        intros H; inversion H; other_message.
  - apply unitOfWork_not_notFound.
Qed.

Lemma directional_not_notFound dir env migrations db tx oldVersion target (v : Z) :
  res_err (directional tableName dir env migrations db tx oldVersion target)
  <> Some (notFound v).
Proof.
  destruct (pendingOf dir migrations oldVersion target) as [| m0 rest] eqn:Hp.
  - rewrite (directional_empty _ _ _ _ _ _ _ Hp). cbn [res_err].
    pose proof (noWork_not_notFound v). congruence.
  - rewrite (directional_nonempty _ _ _ _ _ _ _ _ Hp) by discriminate.
    destruct (runUnit env tx db (unitOfWork tableName env dir (m0 :: rest)))
      as [[db1 st1] [e |]] eqn:E; cbn [res_err]; [| discriminate].
    pose proof (runUnit_not_notFound _ _ _ _ _ _ _ _ v E). congruence.
Qed.

Lemma existsb_version (migrations : list (migration D)) (v : Z) :
  existsb (fun m => version m =? v) migrations = true
  <-> In v (map version migrations).
Proof.
  rewrite existsb_exists, in_map_iff.
  split; intros (m & H1 & H2).
  - apply Z.eqb_eq in H2. eauto.
  - exists m. split; [assumption | now apply Z.eqb_eq].
Qed.

(** No version above [old] is registered: nothing is pending upwards. *)
Lemma pendingUp_empty migrations (old target : Z) :
  (forall m, In m migrations -> version m <= old) ->
  pendingUp migrations old target = [].
Proof.
  intros Hle. unfold pendingUp.
  assert (Hall : forall m, In m (sortedMigrations migrations) -> version m <= old).
  { intros m Hin. apply Hle.
    apply (Permutation_in _ (Permutation_sym (sortedMigrations_perm migrations))).
    exact Hin. }
  induction (sortedMigrations migrations) as [| m l IH]; [reflexivity |].
  simpl. specialize (Hall m (or_introl eq_refl)) as Hm.
  replace (old <? version m) with false by (symmetry; apply Z.ltb_ge; lia).
  simpl. apply IH. intros m' Hin. apply Hall. now right.
Qed.

(** No step at version [old] is registered: Down has nothing pending. *)
Lemma pendingDown_empty migrations (old : Z) :
  is_int64 old ->
  (forall m, In m migrations -> version m <> old) ->
  pendingDown migrations old (wrap64 (old - 1)) = [].
Proof.
  intros Hrange Hne. unfold pendingDown.
  assert (Hall : forall m, In m (rev (sortedMigrations migrations)) -> version m <> old).
  { intros m Hin. apply Hne. apply in_rev in Hin.
    apply (Permutation_in _ (Permutation_sym (sortedMigrations_perm migrations))).
    exact Hin. }
  assert (Hw : old - 1 <= wrap64 (old - 1)).
  { unfold is_int64, min_int64, max_int64 in Hrange. unfold wrap64.
    destruct (Z.eq_dec old (- 2 ^ 63)) as [-> | Hmin].
    - vm_compute. discriminate.
    - rewrite Z.mod_small by lia. lia. }
  induction (rev (sortedMigrations migrations)) as [| m l IH]; [reflexivity |].
  simpl. specialize (Hall m (or_introl eq_refl)) as Hm.
  replace ((version m <=? old) && (wrap64 (old - 1) <? version m))%bool with false.
  - apply IH. intros m' Hin. apply Hall. now right.
  - symmetry. apply andb_false_iff.
    destruct (Z_le_gt_dec (version m) old) as [Hle | Hgt].
    + right. apply Z.ltb_ge. lia.
    + left. apply Z.leb_gt. lia.
Qed.

(** C7. A directional application whose pending set is empty returns the
    NoWork error, invokes nothing and leaves the database alone; so do Up
    when no registered version exceeds the current one and Down when no
    step is registered at the current version (the version table is
    created, no record is written). NoWork differs from every NotFound
    error. *)
Theorem empty_pending_is_NoWork env migrations db tx :
  create_err env = None -> query_err env = None ->
  (forall dir oldVersion target,
      pendingOf dir migrations oldVersion target = [] ->
      directional tableName dir env migrations db tx oldVersion target
      = mkResult db [] oldVersion 0 (Some noWork))
  /\ ((forall m, In m migrations -> version m <= resolved db) ->
      Up tableName env migrations db tx
      = mkResult (withTable db) [] (resolved db) 0 (Some noWork))
  /\ (is_int64 (resolved db) ->
      (forall m, In m migrations -> version m <> resolved db) ->
      Down tableName env migrations db tx
      = mkResult (withTable db) [] (resolved db) 0 (Some noWork))
  /\ rowsOf (withTable db) = rowsOf db
  /\ tables (withTable db) = tables db
  /\ (forall v, noWork <> notFound v).
Proof.
  intros Hc Hq. split; [| split; [| split; [| split; [| split]]]].
  - intros dir oldVersion target Hp. now apply directional_empty.
  - intros Hle. unfold Up. rewrite (CurrentVersion_ok _ _ Hc Hq).
    apply (directional_empty Ascending). simpl. now apply pendingUp_empty.
  - intros Hrange Hne. unfold Down. rewrite (CurrentVersion_ok _ _ Hc Hq).
    apply (directional_empty Descending). simpl. now apply pendingDown_empty.
  - reflexivity.
  - reflexivity.
  - apply noWork_not_notFound.
Qed.

(** C10. When the resolved current version equals the target, ToVersion
    returns (v, v) without error, invokes nothing and writes no record,
    whether or not a step with version v is registered; and it returns
    the NotFound error exactly when the target differs from the current
    version and no registered step has that version. *)
Theorem ToVersion_noop_before_NotFound env migrations db tx (v : Z) :
  create_err env = None -> query_err env = None ->
  (resolved db = v ->
   ToVersion tableName env migrations db tx v
   = mkResult (withTable db) [] v v None)
  /\ (res_err (ToVersion tableName env migrations db tx v) = Some (notFound v)
      <-> resolved db <> v /\ ~ In v (map version migrations)).
Proof.
  intros Hc Hq. unfold ToVersion. rewrite (CurrentVersion_ok _ _ Hc Hq).
  split.
  - intros Heq. now rewrite (proj2 (Z.eqb_eq _ _) Heq).
  - destruct (resolved db =? v) eqn:Ev.
    + apply Z.eqb_eq in Ev. simpl. split; [discriminate | tauto].
    + apply Z.eqb_neq in Ev.
      destruct (existsb (fun m => version m =? v) migrations) eqn:Ex.
      * apply existsb_version in Ex. split; [| tauto].
        intros H. exfalso.
        destruct (resolved db <? v).
        -- exact (directional_not_notFound Ascending _ _ _ _ _ _ _ H).
        -- exact (directional_not_notFound Descending _ _ _ _ _ _ _ H).
      * simpl. split; [| reflexivity].
        intros _. split; [assumption |].
        intros Hin. apply existsb_version in Hin. congruence.
Qed.

(** *** Up on a registry with versions 1..n *)









(** *** The public operations, once the current version is resolved *)

Lemma resolved_no_rows db : rowsOf db = [] -> resolved db = 0.
Proof.
  intros H. unfold resolved. rewrite H.
  now rewrite (proj2 (order_by_nil_iff []) eq_refl).
Qed.

Lemma resolved_all_same db (v : Z) :
  rowsOf db <> [] ->
  (forall r, In r (rowsOf db) -> row_version r = v) ->
  resolved db = v.
Proof.
  intros Hne Hall. unfold resolved.
  destruct (order_by_updated_at_desc (rowsOf db)) as [| r0 rest] eqn:E.
  - apply (proj1 (order_by_nil_iff _)) in E. contradiction.
  - apply order_by_head in E. destruct E as [Hin _]. now apply Hall.
Qed.

Lemma Up_resolved env migrations db tx :
  create_err env = None -> query_err env = None ->
  Up tableName env migrations db tx
  = upTo tableName env migrations (withTable db) tx (resolved db) max_int64.
Proof. intros Hc Hq. unfold Up. now rewrite (CurrentVersion_ok _ _ Hc Hq). Qed.

Lemma Down_resolved env migrations db tx :
  create_err env = None -> query_err env = None ->
  Down tableName env migrations db tx
  = downTo tableName env migrations (withTable db) tx (resolved db)
           (wrap64 (resolved db - 1)).
Proof. intros Hc Hq. unfold Down. now rewrite (CurrentVersion_ok _ _ Hc Hq). Qed.

Lemma ToVersion_resolved env migrations db tx (v : Z) :
  create_err env = None -> query_err env = None ->
  ToVersion tableName env migrations db tx v
  = if resolved db =? v then mkResult (withTable db) [] v v None
    else if existsb (fun m => version m =? v) migrations then
           if resolved db <? v
           then upTo tableName env migrations (withTable db) tx (resolved db) v
           else downTo tableName env migrations (withTable db) tx (resolved db) v
         else mkResult (withTable db) [] 0 0 (Some (notFound v)).
Proof. intros Hc Hq. unfold ToVersion. now rewrite (CurrentVersion_ok _ _ Hc Hq). Qed.

(** In a transaction, an error from upTo or downTo leaves the database as
    it was; so a failing Up, Down or ToVersion leaves nothing behind but
    the version table [CurrentVersion] created. *)
Lemma directional_tx_error_keeps_db dir env migrations db oldVersion target e :
  res_err (directional tableName dir env migrations db true oldVersion target) = Some e ->
  res_db (directional tableName dir env migrations db true oldVersion target) = db.
Proof.
  destruct (pendingOf dir migrations oldVersion target) as [| m0 rest] eqn:Hp.
  - now rewrite (directional_empty _ _ _ _ _ _ _ Hp).
  - rewrite (directional_nonempty _ _ _ _ _ _ _ _ Hp) by discriminate.
    unfold runUnit.
    destruct (runTx env db (unitOfWork tableName env dir (m0 :: rest)) (mkLocals 0 []))
      as [[db1 st1] [e1 |]] eqn:E; cbn [res_err res_db]; [| discriminate].
    intros _. exact (runTx_error_keeps_db _ _ _ _ _ _ _ E).
Qed.

Lemma public_tx_error_keeps_db env migrations db :
  create_err env = None -> query_err env = None ->
  (forall e, res_err (Up tableName env migrations db true) = Some e ->
             res_db (Up tableName env migrations db true) = withTable db)
  /\ (forall e, res_err (Down tableName env migrations db true) = Some e ->
                res_db (Down tableName env migrations db true) = withTable db)
  /\ (forall v e, res_err (ToVersion tableName env migrations db true v) = Some e ->
                  res_db (ToVersion tableName env migrations db true v) = withTable db).
Proof.
  intros Hc Hq. split; [| split].
  - intros e. rewrite (Up_resolved _ _ _ _ Hc Hq).
    apply (directional_tx_error_keeps_db Ascending).
  - intros e. rewrite (Down_resolved _ _ _ _ Hc Hq).
    apply (directional_tx_error_keeps_db Descending).
  - intros v e. rewrite (ToVersion_resolved _ _ _ _ _ Hc Hq).
    destruct (resolved db =? v); [discriminate |].
    destruct (existsb (fun m => version m =? v) migrations); [| reflexivity].
    destruct (resolved db <? v).
    + apply (directional_tx_error_keeps_db Ascending).
    + apply (directional_tx_error_keeps_db Descending).
Qed.

(** *** Register *)

Lemma Register_nil (u d : option (MigrationFunc D)) (callerFile : string) migrations :
  u = None \/ d = None ->
  Register u d callerFile migrations
  = Panicked "migrations cannot be nil in register".
Proof. intros [-> | ->]; [| destruct u]; reflexivity. Qed.

Lemma Register_bad_label (u d : MigrationFunc D) (callerFile : string) migrations e :
  snd (versionFromFile (Base callerFile)) = Some e ->
  Register (Some u) (Some d) callerFile migrations = Panicked e.
Proof.
  intros H. unfold Register.
  destruct (versionFromFile (Base callerFile)) as [v [e' |]]; simpl in H.
  - now inversion H.
  - discriminate.
Qed.

Lemma Register_negative (u d : MigrationFunc D) (callerFile : string) migrations v :
  versionFromFile (Base callerFile) = (v, None) ->
  v < 0 ->
  exists msg, Register (Some u) (Some d) callerFile migrations = Panicked msg.
Proof.
  intros H Hv. unfold Register. rewrite H.
  rewrite (proj2 (Z.ltb_lt _ _) Hv). eauto.
Qed.

Lemma Register_duplicate (u d : MigrationFunc D) (callerFile : string) migrations v m :
  versionFromFile (Base callerFile) = (v, None) ->
  0 <= v ->
  find (fun m => version m =? v) migrations = Some m ->
  Register (Some u) (Some d) callerFile migrations
  = Panicked ("migration with number " ++ itoa v
              ++ " has already been registered in file " ++ file m).
Proof.
  intros H Hv Hf. unfold Register. rewrite H.
  rewrite (proj2 (Z.ltb_ge _ _) Hv), Hf. reflexivity.
Qed.

(** Any version that is not negative goes through, 0 included. *)
Lemma Register_accepts (u d : MigrationFunc D) (callerFile : string) migrations v :
  versionFromFile (Base callerFile) = (v, None) ->
  0 <= v ->
  find (fun m => version m =? v) migrations = None ->
  Register (Some u) (Some d) callerFile migrations
  = Returned (migrations ++ [mkMigration v u d (Base callerFile)]).
Proof.
  intros H Hv Hf. unfold Register. rewrite H.
  rewrite (proj2 (Z.ltb_ge _ _) Hv), Hf. reflexivity.
Qed.

End Properties.

(* ================================================================== *)
(** ** The scenarios of mig_test.go *)

(** C1. Registry generateMigrations(3), fresh database, every call in a
    transaction, no statement failing, any engine and any clock readings.
    Up returns (0, 3) and invokes up 1, 2, 3; Down returns (3, 2) and
    invokes down 3, but the record it appends carries version 3, the
    version it has just undone; ToVersion 1 therefore resolves the current
    version to 3, returns (3, 1) and invokes down 3 again, then down 2. *)
Theorem up_down_toVersion_scenario (engine : SqlEngine) (t1 t2 t3 : Z) :
  let r1 := Up defaultTableName (quiet t1) (generateMigrations 3) freshDB true in
  let r2 := Down defaultTableName (quiet t2) (generateMigrations 3) (res_db r1) true in
  let r3 := ToVersion defaultTableName (quiet t3) (generateMigrations 3) (res_db r2) true 1 in
  (res_old r1, res_new r1, res_err r1, res_calls r1)
  = (0, 3, None, [CallUp 1; CallUp 2; CallUp 3])
  /\ (res_old r2, res_new r2, res_err r2, res_calls r2)
     = (3, 2, None, [CallDown 3])
  /\ rowsOf (res_db r2) = [mkRow 3 t1; mkRow 3 t2]
  /\ resolved (res_db r2) = 3
  /\ (res_old r3, res_new r3, res_err r3, res_calls r3)
     = (3, 1, None, [CallDown 3; CallDown 2]).
Proof.
  intros r1 r2 r3.
  assert (H1 : r1 = mkResult
                 (mkDatabase [(1, 0); (2, 0); (3, 0)] (Some [mkRow 3 t1]))
                 [CallUp 1; CallUp 2; CallUp 3] 0 3 None).
  { subst r1. rewrite Up_resolved by reflexivity.
    rewrite (resolved_no_rows runLog freshDB eq_refl). reflexivity. }
  assert (Hv1 : resolved (res_db r1) = 3).
  { rewrite H1. apply resolved_all_same; [discriminate |].
    intros r [<- | []]. reflexivity. }
  assert (H2 : r2 = mkResult
                 (mkDatabase [(1, 0); (2, 0); (3, 0); (3, 1)]
                             (Some [mkRow 3 t1; mkRow 3 t2]))
                 [CallDown 3] 3 2 None).
  { subst r2. rewrite Down_resolved by reflexivity. rewrite Hv1, H1. reflexivity. }
  assert (Hv2 : resolved (res_db r2) = 3).
  { rewrite H2. apply resolved_all_same; [discriminate |].
    intros r [<- | [<- | []]]; reflexivity. }
  assert (H3 : r3 = mkResult
                 (mkDatabase [(1, 0); (2, 0); (3, 0); (3, 1); (3, 1); (2, 1)]
                             (Some [mkRow 3 t1; mkRow 3 t2; mkRow 2 t3]))
                 [CallDown 3; CallDown 2] 3 1 None).
  { subst r3. rewrite ToVersion_resolved by reflexivity. rewrite Hv2, H2. reflexivity. }
  rewrite Hv2. rewrite H1, H2, H3. repeat split.
Qed.

(** C5. TestRegister_InvalidVersion: Register, called from 0000_foo.go with
    two functions on an empty registry, returns and records a step with
    version 0. *)
Theorem Register_version_zero_is_accepted :
  versionFromFile "0000_foo.go" = (0, None)
  /\ Register (Some emptyMigrationFunc) (Some emptyMigrationFunc) "/0000_foo.go" []
     = Returned [mkMigration 0 emptyMigrationFunc emptyMigrationFunc "0000_foo.go"].
Proof. split; reflexivity. Qed.


(** TestUp_ErrorMigration, tx:true. *)
Lemma tx_step_failure_rolls_back_witness :
  let r := upTo defaultTableName (quiet 100) errorMigrations
                (withTable freshDB) true 0 max_int64 in
  (exists e, res_err r = Some e)
  /\ res_db r = withTable freshDB
  /\ vtable (res_db r) = Some []
  /\ tables (res_db r) = [].
Proof.
  exact (tx_step_failure_rolls_back runLog defaultTableName
           Ascending (quiet 100) errorMigrations (withTable freshDB) 0 max_int64
           [testMigration 1 None] (testMigration 2 (Some "err")) [testMigration 3 None]
           (mkDatabase [(1, 0)] (Some [])) (mkLocals 1 [CallUp 1])
           [(1, 0); (2, 0)] "err" eq_refl eq_refl eq_refl).
Defined.

(** As TestUp_ErrorMigration with tx:false, on four steps of which the third
    fails: the rows of steps 1 and 2 stay, with the row the failing step
    wrote before it failed. *)
Lemma no_tx_step_failure_keeps_prefix_witness :
  let registry := [testMigration 1 None; testMigration 2 None;
                   testMigration 3 (Some "err"); testMigration 4 None] in
  let r := upTo defaultTableName (quiet 100) registry
                (withTable freshDB) false 0 max_int64 in
  res_err r = Some "error applying migration up 3: err"
  /\ tables (res_db r) = [(1, 0); (2, 0); (3, 0)]
  /\ vtable (res_db r) = Some []
  /\ res_calls r = [CallUp 1; CallUp 2; CallUp 3].
Proof.
  exact (no_tx_step_failure_keeps_prefix runLog defaultTableName
           Ascending (quiet 100)
           [testMigration 1 None; testMigration 2 None;
            testMigration 3 (Some "err"); testMigration 4 None]
           (withTable freshDB) 0 max_int64
           [testMigration 1 None; testMigration 2 None]
           (testMigration 3 (Some "err")) [testMigration 4 None] "err"
           eq_refl (conj eq_refl (conj eq_refl I)) eq_refl).
Defined.

(** TestDown_ErrorMigration, tx:false: the step at version 2 fails going
    down from version 2. *)
Lemma step_failure_reports_attempted_version_witness :
  let registry := [testMigration 2 (Some "err")] in
  let db := mkDatabase [] (Some [mkRow 2 50]) in
  let r := downTo defaultTableName (quiet 100) registry db false 2 1 in
  (exists e, res_err r = Some e) /\ res_new r = 1.
Proof.
  exact (step_failure_reports_attempted_version runLog defaultTableName
           Descending (quiet 100) [testMigration 2 (Some "err")]
           (mkDatabase [] (Some [mkRow 2 50])) false 2 1
           [] (testMigration 2 (Some "err")) []
           (mkDatabase [] (Some [mkRow 2 50])) (mkLocals 0 [])
           [(2, 1)] "err" eq_refl eq_refl eq_refl
           (fun H : false = true => False_ind _ (Bool.diff_false_true H))).
Defined.

(** C8 as stated fails on TestUp_ErrorMigration (tx:false): the second
    pending step, version 2, fails after version 1 succeeded, and the
    version returned with the error is 2, not 1. *)
Lemma frontier_is_not_last_success :
  let r := Up (engine := stable_engine) defaultTableName (quiet 100)
              errorMigrations freshDB false in
  pendingUp errorMigrations 0 max_int64 = errorMigrations
  /\ res_calls r = [CallUp 1; CallUp 2]
  /\ tables (res_db r) = [(1, 0); (2, 0)]
  /\ res_err r = Some "error applying migration up 2: err"
  /\ res_new r = 2
  /\ res_new r <> version (testMigration 1 None).
Proof. repeat split. vm_compute. discriminate. Qed.

(** TestUp_ErrorMigration in a transaction whose rollback fails. *)
Lemma rollback_failure_supersedes_step_error_witness :
  let env := mkEnv 100 None None None None (Some "driver: bad connection") None in
  let r := upTo defaultTableName env errorMigrations (withTable freshDB) true 0 max_int64 in
  res_err r = Some "unable to rollback: driver: bad connection"
  /\ res_db r = withTable freshDB.
Proof.
  exact (rollback_failure_supersedes_step_error runLog defaultTableName
           Ascending (mkEnv 100 None None None None (Some "driver: bad connection") None)
           errorMigrations (withTable freshDB) 0 max_int64
           [testMigration 1 None] (testMigration 2 (Some "err")) [testMigration 3 None]
           (mkDatabase [(1, 0)] (Some [])) (mkLocals 1 [CallUp 1])
           [(1, 0); (2, 0)] "err" "driver: bad connection"
           eq_refl eq_refl eq_refl eq_refl eq_refl).
Defined.

(** The later record wins although its version is the smaller one. *)
Lemma CurrentVersion_latest_record_witness :
  CurrentVersion (engine := stable_engine) defaultTableName (quiet 100)
    (mkDatabase ([] : runLog) (Some [mkRow 3 1; mkRow 2 2]))
  = (mkDatabase [] (Some [mkRow 3 1; mkRow 2 2]), 2, None).
Proof.
  destruct (CurrentVersion_latest_record runLog defaultTableName
              (engine := stable_engine) (quiet 100)
              (mkDatabase [] (Some [mkRow 3 1; mkRow 2 2])) eq_refl eq_refl)
    as (v & _ & _ & _ & _ & Hexample).
  exact (Hexample []).
Defined.

(** TestUp_NoMigrations: nothing is registered. *)
Lemma empty_pending_is_NoWork_witness :
  Up (engine := stable_engine) defaultTableName (quiet 100) [] freshDB true
  = mkResult (withTable freshDB) [] 0 0 (Some "no transactions to run").
Proof.
  destruct (empty_pending_is_NoWork runLog defaultTableName
              (engine := stable_engine) (quiet 100) [] freshDB true
              eq_refl eq_refl) as (_ & Hup & _).
  apply Hup. intros m [].
Defined.

(** Target 0 on a fresh database and an empty registry: no step has
    version 0, and the call is the no-op. *)
Lemma ToVersion_noop_before_NotFound_witness :
  ToVersion (engine := stable_engine) defaultTableName (quiet 100) [] freshDB true 0
  = mkResult (withTable freshDB) [] 0 0 None.
Proof.
  destruct (ToVersion_noop_before_NotFound runLog defaultTableName
              (engine := stable_engine) (quiet 100) [] freshDB true 0
              eq_refl eq_refl) as (Hnoop & _).
  apply Hnoop. reflexivity.
Defined.

(* ================================================================== *)
(** ** Further properties of the package *)

Section Ordering.

Variable D : Type.

Implicit Types (m : migration D) (migrations : list (migration D)).

Lemma insert_byVersion_keeps_ties (v : Z) m (l : list (migration D)) :
  filter (fun x => version x =? v) (insert_byVersion m l)
  = filter (fun x => version x =? v) (m :: l).
Proof.
  induction l as [| y l IH]; [reflexivity |].
  cbn [insert_byVersion].
  destruct (version y <? version m) eqn:E; [| reflexivity].
  apply Z.ltb_lt in E.
  cbn [filter] in IH |- *. rewrite IH.
  destruct (version m =? v) eqn:Em; [| reflexivity].
  apply Z.eqb_eq in Em.
  replace (version y =? v) with false; [reflexivity |].
  symmetry. apply Z.eqb_neq. lia.
Qed.

Lemma sortedMigrations_ties (v : Z) migrations :
  filter (fun x => version x =? v) (sortedMigrations migrations)
  = filter (fun x => version x =? v) migrations.
Proof.
  induction migrations as [| m l IH]; [reflexivity |].
  cbn [sortedMigrations fold_right].
  rewrite insert_byVersion_keeps_ties.
  cbn [filter]. fold (sortedMigrations l). now rewrite IH.
Qed.

(** X1. The sorted view holds the same steps as the registry, in ascending
    order of version, and steps of equal version keep the order in which
    they were registered. *)
Theorem sortedMigrations_is_stable_sort migrations :
  Permutation migrations (sortedMigrations migrations)
  /\ StronglySorted (fun a b => version a <= version b) (sortedMigrations migrations)
  /\ forall v, filter (fun x => version x =? v) (sortedMigrations migrations)
               = filter (fun x => version x =? v) migrations.
Proof.
  split; [apply sortedMigrations_perm |].
  split; [apply sortedMigrations_sorted |].
  intros v. apply sortedMigrations_ties.
Qed.

Lemma filter_sorted (A : Type) (R : A -> A -> Prop) (f : A -> bool) (l : list A) :
  StronglySorted R l -> StronglySorted R (filter f l).
Proof.
  induction 1 as [| a l Hs IH Hall]; simpl; [constructor |].
  destruct (f a); [| exact IH].
  constructor; [exact IH |].
  rewrite Forall_forall in Hall |- *.
  intros x Hx. apply filter_In in Hx. now apply Hall.
Qed.

Lemma app_sorted (A : Type) (R : A -> A -> Prop) (l1 l2 : list A) :
  StronglySorted R l1 -> StronglySorted R l2 ->
  (forall x y, In x l1 -> In y l2 -> R x y) ->
  StronglySorted R (l1 ++ l2).
Proof.
  induction 1 as [| a l1 Hs IH Hall]; intros H2 Hx; simpl; [exact H2 |].
  constructor.
  - apply IH; [exact H2 |]. intros x y Hin. apply Hx. now right.
  - apply Forall_app. split; [exact Hall |].
    apply Forall_forall. intros y Hy. apply Hx; [now left | exact Hy].
Qed.

Lemma rev_sorted (A : Type) (R : A -> A -> Prop) (l : list A) :
  StronglySorted R l -> StronglySorted (fun a b => R b a) (rev l).
Proof.
  induction 1 as [| a l Hs IH Hall]; simpl; [constructor |].
  apply app_sorted; [exact IH | repeat constructor |].
  intros x y Hx [<- | []].
  rewrite Forall_forall in Hall. apply Hall. now apply in_rev.
Qed.

Lemma sortedMigrations_In m migrations :
  In m (sortedMigrations migrations) <-> In m migrations.
Proof.
  split; apply Permutation_in; [apply Permutation_sym |];
    apply sortedMigrations_perm.
Qed.

Lemma pendingUp_by_range migrations (oldVersion target : Z) :
  (forall m, In m (pendingUp migrations oldVersion target)
             <-> In m migrations /\ oldVersion < version m <= target)
  /\ StronglySorted (fun a b => version a <= version b)
                    (pendingUp migrations oldVersion target).
Proof.
  split.
  - intros m. unfold pendingUp.
    rewrite filter_In, sortedMigrations_In, andb_true_iff.
    rewrite Z.ltb_lt, Z.leb_le. tauto.
  - apply filter_sorted, sortedMigrations_sorted.
Qed.

Lemma pendingDown_rev migrations (oldVersion target : Z) :
  pendingDown migrations oldVersion target
  = rev (pendingUp migrations target oldVersion).
Proof.
  unfold pendingDown, pendingUp. rewrite filter_rev. f_equal.
  apply filter_ext. intros m. apply andb_comm.
Qed.

Lemma pendingDown_by_range migrations (oldVersion target : Z) :
  (forall m, In m (pendingDown migrations oldVersion target)
             <-> In m migrations /\ target < version m <= oldVersion)
  /\ StronglySorted (fun a b => version b <= version a)
                    (pendingDown migrations oldVersion target).
Proof.
  rewrite pendingDown_rev.
  destruct (pendingUp_by_range migrations target oldVersion) as [Hin Hs].
  split.
  - intros m. rewrite <- in_rev. apply Hin.
  - now apply (rev_sorted _ (fun a b => version a <= version b)).
Qed.

Lemma Permutation_filter_same (A : Type) (f : A -> bool) (l l' : list A) :
  Permutation l l' -> Permutation (filter f l) (filter f l').
Proof.
  induction 1 as [| x l l' Hp IH | x y l | l l' l'' H1 IH1 H2 IH2]; cbn [filter].
  - apply perm_nil.
  - destruct (f x); [apply perm_skip |]; exact IH.
  - destruct (f x), (f y); try apply Permutation_refl. apply perm_swap.
  - exact (perm_trans IH1 IH2).
Qed.

(** Among the steps a filter keeps, those of version [v] are all the steps
    of version [v] or none of them, as the filter decides for that
    version. *)
Lemma filter_version_of_filter (f : migration D -> bool) (c : bool) (v : Z)
      (l : list (migration D)) :
  (forall x, version x = v -> f x = c) ->
  filter (fun x => version x =? v) (filter f l)
  = if c then filter (fun x => version x =? v) l else [].
Proof.
  intros Hf. induction l as [| a l IH]; cbn [filter]; [now destruct c |].
  destruct (version a =? v) eqn:E.
  - apply Z.eqb_eq in E. rewrite (Hf a E).
    destruct c; [| exact IH].
    cbn [filter]. rewrite (proj2 (Z.eqb_eq _ _) E). now rewrite IH.
  - destruct (f a); [| exact IH].
    cbn [filter]. rewrite E. exact IH.
Qed.

(** X2. The pending set of upTo holds exactly the registered steps with
    oldVersion < version <= target, each as many times as it is registered,
    in ascending order, steps of one version in their order of
    registration; the pending set of downTo holds exactly those with
    target < version <= oldVersion, in descending order, and is the reverse
    of the ascending pending set of the same range. *)
Theorem pending_sets_by_range migrations (oldVersion target : Z) :
  (forall m, In m (pendingUp migrations oldVersion target)
             <-> In m migrations /\ oldVersion < version m <= target)
  /\ StronglySorted (fun a b => version a <= version b)
                    (pendingUp migrations oldVersion target)
  /\ (forall m, In m (pendingDown migrations oldVersion target)
                <-> In m migrations /\ target < version m <= oldVersion)
  /\ StronglySorted (fun a b => version b <= version a)
                    (pendingDown migrations oldVersion target)
  /\ pendingDown migrations oldVersion target
     = rev (pendingUp migrations target oldVersion)
  /\ Permutation
       (pendingUp migrations oldVersion target)
       (filter (fun m => (oldVersion <? version m) && (version m <=? target))%bool
               migrations)
  /\ Permutation
       (pendingDown migrations oldVersion target)
       (filter (fun m => (version m <=? oldVersion) && (target <? version m))%bool
               migrations)
  /\ (forall v,
        filter (fun x => version x =? v) (pendingUp migrations oldVersion target)
        = if ((oldVersion <? v) && (v <=? target))%bool
          then filter (fun x => version x =? v) migrations
          else [])
  /\ (forall v,
        filter (fun x => version x =? v) (pendingDown migrations oldVersion target)
        = if ((target <? v) && (v <=? oldVersion))%bool
          then rev (filter (fun x => version x =? v) migrations)
          else []).
Proof.
  destruct (pendingUp_by_range migrations oldVersion target) as [Hu Hsu].
  destruct (pendingDown_by_range migrations oldVersion target) as [Hd Hsd].
  assert (Hties : forall old tgt v,
             filter (fun x => version x =? v) (pendingUp migrations old tgt)
             = if ((old <? v) && (v <=? tgt))%bool
               then filter (fun x => version x =? v) migrations
               else []).
  { intros old tgt v. unfold pendingUp.
    rewrite (filter_version_of_filter _ ((old <? v) && (v <=? tgt))%bool v).
    - now rewrite sortedMigrations_ties.
    - intros x <-. reflexivity. }
  split; [exact Hu |]. split; [exact Hsu |].
  split; [exact Hd |]. split; [exact Hsd |].
  split; [apply pendingDown_rev |].
  split.
  { unfold pendingUp. apply Permutation_filter_same.
    apply Permutation_sym, sortedMigrations_perm. }
  split.
  { unfold pendingDown.
    apply perm_trans with
      (filter (fun m => (version m <=? oldVersion) && (target <? version m))%bool
              (sortedMigrations migrations)).
    - apply Permutation_filter_same, Permutation_sym, Permutation_rev.
    - apply Permutation_filter_same, Permutation_sym, sortedMigrations_perm. }
  split; [apply Hties |].
  intros v. rewrite pendingDown_rev, filter_rev, Hties.
  now destruct ((target <? v) && (v <=? oldVersion))%bool.
Qed.

End Ordering.

Section Execution.

Variable D : Type.
Variable tableName : string.
Context {engine : SqlEngine}.

Implicit Types (db h : Database D) (m : migration D) (env : Env).
Implicit Types (migrations pending : list (migration D)).

(** *** What a successful run leaves behind *)

Lemma applyPending_ok_inv dir pending h st h1 st1 :
  applyPending dir pending h st = (h1, st1, None) ->
  h1 = mkDatabase (fold_left (fun d m => fst (action dir m d)) pending (tables h))
                  (vtable h)
  /\ st1 = mkLocals (last (map version pending) (newVersionVar st))
                    (invoked st ++ map (fun m => callOf dir (version m)) pending).
Proof.
  revert h st. induction pending as [| m pending IH]; intros h st.
  - simpl. intros H; inversion H; subst. rewrite app_nil_r.
    destruct h1, st1; auto.
  - cbn [applyPending].
    destruct (action dir m (tables h)) as [d1 [e |]] eqn:E; [discriminate |].
    intros H. apply IH in H. destruct H as [-> ->].
    cbn [tables vtable newVersionVar invoked map fold_left].
    rewrite E. cbn [fst]. rewrite <- app_assoc. cbn [app].
    now rewrite last_cons_default.
Qed.

Lemma runUnit_ok_inv env tx db (fn : UnitOfWork D) db1 st1 :
  runUnit env tx db fn = (db1, st1, None) ->
  fn db (mkLocals 0 []) = (db1, st1, None).
Proof.
  unfold runUnit. destruct tx; [| auto].
  unfold runTx. destruct (begin_err env); [discriminate |].
  destruct (fn db (mkLocals 0 [])) as [[h2 st2] [e |]].
  - destruct (rollback_err env); discriminate.
  - destruct (commit_err env); [discriminate |]. auto.
Qed.

Lemma unitOfWork_ok_inv env dir pending h st h2 st1 :
  unitOfWork tableName env dir pending h st = (h2, st1, None) ->
  st1 = mkLocals (last (map version pending) (newVersionVar st))
                 (invoked st ++ map (fun m => callOf dir (version m)) pending)
  /\ exists t, vtable h = Some t
     /\ h2 = mkDatabase
               (fold_left (fun d m => fst (action dir m d)) pending (tables h))
               (Some (t ++ [mkRow (newVersionVar st1) (now env)])).
Proof.
  unfold unitOfWork.
  destruct (applyPending dir pending h st) as [[h1 st2] [e |]] eqn:E;
    [discriminate |].
  apply applyPending_ok_inv in E. destruct E as [-> ->].
  unfold SetVersion. destruct (insert_err env); [discriminate |].
  cbn [vtable tables newVersionVar].
  destruct (vtable h) as [t |]; [| discriminate].
  intros H; inversion H; subst. split; [reflexivity |].
  exists t. auto.
Qed.

(** A directional application that returns no error ran every pending
    step, in order, and then recorded the version of the last one. *)
Lemma directional_ok_inv dir env migrations db tx oldVersion target :
  res_err (directional tableName dir env migrations db tx oldVersion target) = None ->
  let pending := pendingOf dir migrations oldVersion target in
  let w := last (map version pending) 0 in
  pending <> []
  /\ exists t, vtable db = Some t
     /\ directional tableName dir env migrations db tx oldVersion target
        = mkResult
            (mkDatabase
               (fold_left (fun d m => fst (action dir m d)) pending (tables db))
               (Some (t ++ [mkRow w (now env)])))
            (map (fun m => callOf dir (version m)) pending)
            oldVersion
            match dir with Ascending => w | Descending => wrap64 (w - 1) end
            None.
Proof.
  intros Hok pending w. subst w pending.
  destruct (pendingOf dir migrations oldVersion target) as [| m0 rest] eqn:Hp.
  - rewrite (directional_empty _ _ _ _ _ _ _ _ _ Hp) in Hok. discriminate.
  - split; [discriminate |].
    rewrite (directional_nonempty _ _ _ _ _ _ _ _ _ _ Hp) in Hok |- * by discriminate.
    destruct (runUnit env tx db (unitOfWork tableName env dir (m0 :: rest)))
      as [[db1 st1] [e |]] eqn:E; [discriminate |].
    apply runUnit_ok_inv, unitOfWork_ok_inv in E.
    destruct E as [-> (t & Ht & ->)].
    exists t. split; [exact Ht |]. reflexivity.
Qed.

Lemma last_In (A : Type) (l : list A) (d : A) : l <> [] -> In (last l d) l.
Proof.
  induction l as [| a l IH]; [congruence |]. intros _.
  destruct l as [| b l]; [now left |].
  right. apply IH. discriminate.
Qed.

(** The last element of a list sorted by a reflexive relation is above all
    the others. *)
Lemma sorted_last (A : Type) (R : A -> A -> Prop) (l : list A) (d : A) :
  (forall x, R x x) -> StronglySorted R l ->
  forall x, In x l -> R x (last l d).
Proof.
  intros Hrefl. induction 1 as [| a l Hs IH Hall]; intros x Hx; [contradiction |].
  destruct l as [| b l].
  - destruct Hx as [<- | []]. apply Hrefl.
  - change (last (a :: b :: l) d) with (last (b :: l) d).
    destruct Hx as [<- | Hx]; [| now apply IH].
    rewrite Forall_forall in Hall. apply Hall, last_In. discriminate.
Qed.

Lemma map_sorted (A : Type) (R : Z -> Z -> Prop) (f : A -> Z) (l : list A) :
  StronglySorted (fun a b => R (f a) (f b)) l -> StronglySorted R (map f l).
Proof.
  induction 1 as [| a l Hs IH Hall]; simpl; constructor; [exact IH |].
  rewrite Forall_forall in Hall |- *.
  intros z Hz. apply in_map_iff in Hz. destruct Hz as (y & <- & Hy).
  now apply Hall.
Qed.

(** The version recorded by a successful ascending run is the greatest
    pending version; by a descending one, the least. *)
Lemma last_pendingUp migrations (oldVersion target : Z) :
  pendingUp migrations oldVersion target <> [] ->
  let w := last (map version (pendingUp migrations oldVersion target)) 0 in
  In w (map version migrations) /\ oldVersion < w <= target
  /\ forall m, In m migrations -> oldVersion < version m <= target -> version m <= w.
Proof.
  intros Hne w.
  destruct (pendingUp_by_range D migrations oldVersion target) as [Hin Hs].
  assert (Hw : In w (map version (pendingUp migrations oldVersion target))).
  { apply last_In. intros E. apply map_eq_nil in E. contradiction. }
  apply in_map_iff in Hw. destruct Hw as (mw & Hmw & Hinw).
  apply Hin in Hinw. destruct Hinw as [Hreg Hrange].
  split; [rewrite <- Hmw; now apply in_map |].
  split; [lia |].
  intros m Hm Hr.
  apply (sorted_last _ Z.le _ 0 Z.le_refl (map_sorted _ Z.le version _ Hs)).
  apply in_map, Hin. auto.
Qed.

Lemma last_pendingDown migrations (oldVersion target : Z) :
  pendingDown migrations oldVersion target <> [] ->
  let w := last (map version (pendingDown migrations oldVersion target)) 0 in
  In w (map version migrations) /\ target < w <= oldVersion
  /\ forall m, In m migrations -> target < version m <= oldVersion -> w <= version m.
Proof.
  intros Hne w.
  destruct (pendingDown_by_range D migrations oldVersion target) as [Hin Hs].
  assert (Hw : In w (map version (pendingDown migrations oldVersion target))).
  { apply last_In. intros E. apply map_eq_nil in E. contradiction. }
  apply in_map_iff in Hw. destruct Hw as (mw & Hmw & Hinw).
  apply Hin in Hinw. destruct Hinw as [Hreg Hrange].
  split; [rewrite <- Hmw; now apply in_map |].
  split; [lia |].
  intros m Hm Hr.
  apply (sorted_last _ (fun a b => b <= a) _ 0 Z.le_refl
           (map_sorted _ (fun a b => b <= a) version _ Hs)).
  apply in_map, Hin. auto.
Qed.

End Execution.

Section PublicOperations.

Variable D : Type.
Variable tableName : string.
Context {engine : SqlEngine}.

Implicit Types (db h : Database D) (m : migration D) (env : Env).
Implicit Types (migrations pending : list (migration D)).

(** A record strictly later than every other one is the current one. *)
Lemma resolved_unique_latest db (r : row) :
  In r (rowsOf db) ->
  (forall r', In r' (rowsOf db) -> r' = r \/ updated_at r' < updated_at r) ->
  resolved db = row_version r.
Proof.
  intros Hin Hlt. unfold resolved.
  destruct (order_by_updated_at_desc (rowsOf db)) as [| r0 rest] eqn:E.
  - apply (proj1 (order_by_nil_iff _)) in E. rewrite E in Hin. contradiction.
  - apply order_by_head in E. destruct E as [Hin0 Hmax].
    destruct (Hlt r0 Hin0) as [-> | Hlt0]; [reflexivity |].
    specialize (Hmax r Hin). lia.
Qed.

Lemma resolved_after_append (d : D) (t : list row) (v now' : Z) :
  (forall r, In r t -> updated_at r < now') ->
  resolved (mkDatabase d (Some (t ++ [mkRow v now']))) = v.
Proof.
  intros Hlt.
  apply (resolved_unique_latest _ (mkRow v now')).
  - unfold rowsOf. simpl. apply in_or_app. right. now left.
  - unfold rowsOf. simpl. intros r' Hr'. apply in_app_or in Hr'.
    destruct Hr' as [Hr' | [<- | []]]; [right; now apply Hlt | now left].
Qed.

(** [CurrentVersion] touches neither the tables nor the records. *)
Lemma CurrentVersion_keeps env db db1 (v : Z) (err : option string) :
  CurrentVersion tableName env db = (db1, v, err) ->
  tables db1 = tables db /\ rowsOf db1 = rowsOf db.
Proof.
  unfold CurrentVersion, setup.
  destruct (create_err env); [intros H; inversion H; subst; auto |].
  assert (Hw : (match vtable db with
                | Some _ => (db, @None string)
                | None => (mkDatabase (tables db) (Some []), None)
                end) = (withTable db, None)).
  { unfold withTable, rowsOf. destruct db as [d [t |]]; reflexivity. }
  rewrite Hw.
  destruct (query_err env); [intros H; inversion H; subst; auto |].
  destruct (order_by_updated_at_desc
              match vtable (withTable db) with Some t => t | None => [] end);
    intros H; inversion H; subst; auto.
Qed.

Lemma Up_ok_inv env migrations db tx :
  res_err (Up tableName env migrations db tx) = None ->
  Up tableName env migrations db tx
  = upTo tableName env migrations (withTable db) tx (resolved db) max_int64.
Proof.
  unfold Up.
  destruct (CurrentVersion tableName env db) as [[db1 old] [e |]] eqn:E;
    [discriminate |].
  apply CurrentVersion_inv in E. destruct E as [-> ->]. reflexivity.
Qed.

Lemma Down_ok_inv env migrations db tx :
  res_err (Down tableName env migrations db tx) = None ->
  Down tableName env migrations db tx
  = downTo tableName env migrations (withTable db) tx (resolved db)
           (wrap64 (resolved db - 1)).
Proof.
  unfold Down.
  destruct (CurrentVersion tableName env db) as [[db1 old] [e |]] eqn:E;
    [discriminate |].
  apply CurrentVersion_inv in E. destruct E as [-> ->]. reflexivity.
Qed.

Lemma ToVersion_ok_inv env migrations db tx (v : Z) :
  res_err (ToVersion tableName env migrations db tx v) = None ->
  resolved db <> v ->
  In v (map version migrations)
  /\ ToVersion tableName env migrations db tx v
     = if resolved db <? v
       then upTo tableName env migrations (withTable db) tx (resolved db) v
       else downTo tableName env migrations (withTable db) tx (resolved db) v.
Proof.
  unfold ToVersion.
  destruct (CurrentVersion tableName env db) as [[db1 old] [e |]] eqn:E;
    [discriminate |].
  apply CurrentVersion_inv in E. destruct E as [-> ->].
  intros Hok Hne. rewrite (proj2 (Z.eqb_neq _ _) Hne) in Hok |- *.
  destruct (existsb (fun m => version m =? v) migrations) eqn:Ex;
    [| discriminate].
  split; [now apply existsb_version | reflexivity].
Qed.

(** X3. When Up returns no error, the new version it reports is the
    highest registered version, the functions invoked are the up functions
    of exactly the registered versions above the old one, in ascending
    order, and one record (new version, now) is appended to the version
    table. *)
Theorem Up_success_reaches_highest env migrations db tx :
  (forall m, In m migrations -> version m <= max_int64) ->
  res_err (Up tableName env migrations db tx) = None ->
  let r := Up tableName env migrations db tx in
  let pending := pendingUp migrations (resolved db) max_int64 in
  res_old r = resolved db
  /\ resolved db < res_new r
  /\ In (res_new r) (map version migrations)
  /\ (forall m, In m migrations -> version m <= res_new r)
  /\ (forall m, In m pending <-> In m migrations /\ resolved db < version m)
  /\ res_calls r = map CallUp (map version pending)
  /\ tables (res_db r) = fold_left (fun d m => fst (up m d)) pending (tables db)
  /\ rowsOf (res_db r) = rowsOf db ++ [mkRow (res_new r) (now env)].
Proof.
  intros Hmax Hok r pending. subst r.
  rewrite (Up_ok_inv _ _ _ _ Hok) in Hok |- *.
  destruct (directional_ok_inv D tableName Ascending _ _ _ _ _ _ Hok)
    as (Hne & t & Ht & Hr).
  cbn [pendingOf directional] in Hne, Hr. rewrite Hr. cbn [res_old res_new res_calls res_db tables].
  destruct (last_pendingUp D _ _ _ Hne) as (Hin & Hrange & Hgreatest).
  injection Ht as <-.
  split; [reflexivity |]. split; [lia |]. split; [exact Hin |].
  split.
  { intros m Hm. destruct (Z_lt_le_dec (resolved db) (version m)) as [Hlt | Hle].
    - apply Hgreatest; [exact Hm |]. split; [exact Hlt | now apply Hmax].
    - lia. }
  split.
  { intros m. subst pending.
    rewrite (proj1 (pendingUp_by_range D migrations (resolved db) max_int64) m).
    split; [intros [H1 H2]; split; [exact H1 | lia] |].
    intros [H1 H2]. split; [exact H1 |]. split; [exact H2 | now apply Hmax]. }
  split; [now rewrite map_map |].
  split; reflexivity.
Qed.

(** X4. After an Up that returned no error at a clock reading later than
    every record, a second Up finds nothing to do: it returns the error
    'no transactions to run', invokes nothing and leaves the database as
    it is. *)
Theorem Up_again_is_NoWork env1 env2 migrations db tx1 tx2 :
  (forall m, In m migrations -> version m <= max_int64) ->
  (forall r, In r (rowsOf db) -> updated_at r < now env1) ->
  res_err (Up tableName env1 migrations db tx1) = None ->
  create_err env2 = None -> query_err env2 = None ->
  let r1 := Up tableName env1 migrations db tx1 in
  Up tableName env2 migrations (res_db r1) tx2
  = mkResult (res_db r1) [] (res_new r1) 0 (Some noWork).
Proof.
  intros Hmax Hclock Hok Hc Hq r1. subst r1.
  rewrite (Up_ok_inv _ _ _ _ Hok) in Hok |- *.
  destruct (directional_ok_inv D tableName Ascending _ _ _ _ _ _ Hok)
    as (Hne & t & Ht & Hr).
  cbn [pendingOf directional] in Hne, Hr. rewrite Hr. cbn [res_new res_db].
  destruct (last_pendingUp D _ _ _ Hne) as (Hin & Hrange & Hgreatest).
  injection Ht as <-.
  set (w := last (map version (pendingUp migrations (resolved db) max_int64)) 0) in *.
  rewrite (Up_resolved D tableName _ _ _ _ Hc Hq).
  rewrite (resolved_after_append _ _ _ _ Hclock).
  apply (directional_empty D tableName Ascending). cbn [pendingOf].
  apply pendingUp_empty. intros m Hm.
  destruct (Z_lt_le_dec (resolved db) (version m)) as [Hlt | Hle].
  - apply Hgreatest; [exact Hm |]. split; [exact Hlt | now apply Hmax].
  - lia.
Qed.

End PublicOperations.

Section MovingDownAndAcross.

Variable D : Type.
Variable tableName : string.
Context {engine : SqlEngine}.

Implicit Types (db h : Database D) (m : migration D) (env : Env).
Implicit Types (migrations pending : list (migration D)).

(** With distinct versions, at most one step carries a given version. *)
Lemma filter_version_NoDup (n : Z) migrations :
  NoDup (map version migrations) ->
  filter (fun x => version x =? n) migrations = []
  \/ exists m, filter (fun x => version x =? n) migrations = [m]
               /\ In m migrations /\ version m = n.
Proof.
  induction migrations as [| a l IH]; intros Hnd; [now left |].
  cbn [map] in Hnd. apply NoDup_cons_iff in Hnd. destruct Hnd as [Hnotin Hnd].
  cbn [filter]. destruct (version a =? n) eqn:E.
  - apply Z.eqb_eq in E. right. exists a.
    split; [| split; [now left | exact E]].
    f_equal.
    destruct (filter (fun x => version x =? n) l) as [| b rest] eqn:F;
      [reflexivity |].
    exfalso. apply Hnotin.
    assert (Hb : In b (filter (fun x => version x =? n) l))
      by (rewrite F; now left).
    apply filter_In in Hb. destruct Hb as [Hb Hv]. apply Z.eqb_eq in Hv.
    rewrite E, <- Hv. now apply in_map.
  - destruct (IH Hnd) as [-> | (m & -> & Hin & Hv)]; [now left |].
    right. exists m. split; [reflexivity |]. split; [now right | exact Hv].
Qed.

Lemma wrap64_pred (n : Z) :
  is_int64 n -> n <> min_int64 -> wrap64 (n - 1) = n - 1.
Proof.
  unfold is_int64, min_int64, max_int64, wrap64. intros Hr Hne.
  rewrite Z.mod_small by lia. lia.
Qed.

(** The pending set of Down: the step at the current version, if any. *)
Lemma pendingDown_current migrations (n : Z) :
  NoDup (map version migrations) -> is_int64 n ->
  pendingDown migrations n (wrap64 (n - 1)) = []
  \/ n <> min_int64
     /\ exists m, pendingDown migrations n (wrap64 (n - 1)) = [m]
                  /\ In m migrations /\ version m = n.
Proof.
  intros Hnd Hr.
  destruct (Z.eq_dec n min_int64) as [-> | Hne].
  - left. unfold pendingDown.
    induction (rev (sortedMigrations migrations)) as [| a l IH]; [reflexivity |].
    cbn [filter].
    replace ((version a <=? min_int64) && (wrap64 (min_int64 - 1) <? version a))%bool
      with false; [exact IH |].
    symmetry. apply andb_false_iff.
    change (wrap64 (min_int64 - 1)) with max_int64.
    unfold min_int64, max_int64.
    destruct (Z_le_gt_dec (version a) (- 2 ^ 63)) as [Hle | Hgt].
    + right. apply Z.ltb_ge. lia.
    + left. apply Z.leb_gt. lia.
  - rewrite (wrap64_pred _ Hr Hne).
    assert (Heq : pendingDown migrations n (n - 1)
                  = rev (filter (fun x => version x =? n) migrations)).
    { unfold pendingDown. rewrite filter_rev. f_equal.
      rewrite <- (sortedMigrations_ties D n migrations).
      apply filter_ext. intros a.
      destruct (version a =? n) eqn:E.
      - apply Z.eqb_eq in E. apply andb_true_iff.
        split; [apply Z.leb_le | apply Z.ltb_lt]; lia.
      - apply Z.eqb_neq in E. apply andb_false_iff.
        destruct (Z_le_gt_dec (version a) n) as [Hle | Hgt].
        + right. apply Z.ltb_ge. lia.
        + left. apply Z.leb_gt. lia. }
    rewrite Heq.
    destruct (filter_version_NoDup n migrations Hnd) as [-> | (m & -> & Hin & Hv)].
    + now left.
    + right. split; [exact Hne |]. exists m. auto.
Qed.

(** X5. On a registry with distinct versions, when Down returns no error
    it has invoked the down function of the step registered at the current
    version n, and nothing else, and it reports (n, n-1); the record it
    appends carries n, so that at a clock reading later than every record
    the database still resolves to version n afterwards. *)
Theorem Down_success_undoes_current env migrations db tx :
  NoDup (map version migrations) ->
  is_int64 (resolved db) ->
  res_err (Down tableName env migrations db tx) = None ->
  let r := Down tableName env migrations db tx in
  exists m,
    In m migrations /\ version m = resolved db
    /\ r = mkResult
             (mkDatabase (fst (down m (tables db)))
                         (Some (rowsOf db ++ [mkRow (resolved db) (now env)])))
             [CallDown (resolved db)] (resolved db) (resolved db - 1) None
    /\ ((forall r0, In r0 (rowsOf db) -> updated_at r0 < now env) ->
        resolved (res_db r) = resolved db).
Proof.
  intros Hnd Hr Hok r. subst r.
  rewrite (Down_ok_inv D tableName _ _ _ _ Hok) in Hok |- *.
  destruct (directional_ok_inv D tableName Descending _ _ _ _ _ _ Hok)
    as (Hne & t & Ht & Hres).
  cbn [pendingOf directional] in Hne, Hres. injection Ht as <-.
  destruct (pendingDown_current migrations _ Hnd Hr)
    as [Hnil | (Hmin & m & Hp & Hin & Hv)]; [contradiction |].
  rewrite Hp in Hres. cbn in Hres. rewrite Hv in Hres.
  rewrite (wrap64_pred _ Hr Hmin) in Hres |- *.
  exists m. split; [exact Hin |]. split; [exact Hv |].
  split; [exact Hres |].
  intros Hclock. rewrite Hres. cbn [res_db].
  now apply resolved_after_append.
Qed.

(** X6. When ToVersion towards a version above the current one returns no
    error, that version is registered, the new version reported is the
    target, the functions invoked are the up functions of the registered
    versions in (old, target], ascending, and the record (target, now) is
    appended. *)
Theorem ToVersion_up_success env migrations db tx (v : Z) :
  resolved db < v ->
  res_err (ToVersion tableName env migrations db tx v) = None ->
  let pending := pendingUp migrations (resolved db) v in
  In v (map version migrations)
  /\ ToVersion tableName env migrations db tx v
     = mkResult
         (mkDatabase (fold_left (fun d m => fst (up m d)) pending (tables db))
                     (Some (rowsOf db ++ [mkRow v (now env)])))
         (map CallUp (map version pending)) (resolved db) v None.
Proof.
  intros Hlt Hok pending. subst pending.
  destruct (ToVersion_ok_inv D tableName _ _ _ _ _ Hok) as [Hreg Heq]; [lia |].
  rewrite Heq in Hok |- *. rewrite (proj2 (Z.ltb_lt _ _) Hlt) in Hok |- *.
  split; [exact Hreg |].
  destruct (directional_ok_inv D tableName Ascending _ _ _ _ _ _ Hok)
    as (Hne & t & Ht & Hres).
  cbn [pendingOf directional] in Hne, Hres. injection Ht as <-.
  destruct (last_pendingUp D _ _ _ Hne) as (Hin & Hrange & Hgreatest).
  apply in_map_iff in Hreg. destruct Hreg as (mv & Hmv & Hinv).
  assert (Hw : last (map version (pendingUp migrations (resolved db) v)) 0 = v).
  { specialize (Hgreatest mv Hinv). rewrite Hmv in Hgreatest. lia. }
  rewrite Hres, Hw. cbn [action callOf]. now rewrite map_map.
Qed.

(** X7. When ToVersion towards a version below the current one returns no
    error, the functions invoked are the down functions of the registered
    versions in (target, old], descending; the new version reported is
    w - 1 and the record appended carries w, where w is the lowest
    registered version above the target. *)
Theorem ToVersion_down_success env migrations db tx (v : Z) :
  v < resolved db ->
  res_err (ToVersion tableName env migrations db tx v) = None ->
  let pending := pendingDown migrations (resolved db) v in
  exists w,
    In w (map version migrations) /\ v < w <= resolved db
    /\ (forall m, In m migrations -> v < version m <= resolved db -> w <= version m)
    /\ ToVersion tableName env migrations db tx v
       = mkResult
           (mkDatabase (fold_left (fun d m => fst (down m d)) pending (tables db))
                       (Some (rowsOf db ++ [mkRow w (now env)])))
           (map CallDown (map version pending)) (resolved db) (wrap64 (w - 1)) None.
Proof.
  intros Hlt Hok pending. subst pending.
  destruct (ToVersion_ok_inv D tableName _ _ _ _ _ Hok) as [Hreg Heq]; [lia |].
  rewrite Heq in Hok |- *.
  rewrite (proj2 (Z.ltb_ge _ _) (Z.lt_le_incl _ _ Hlt)) in Hok |- *.
  destruct (directional_ok_inv D tableName Descending _ _ _ _ _ _ Hok)
    as (Hne & t & Ht & Hres).
  cbn [pendingOf directional] in Hne, Hres. injection Ht as <-.
  destruct (last_pendingDown D _ _ _ Hne) as (Hin & Hrange & Hleast).
  exists (last (map version (pendingDown migrations (resolved db) v)) 0).
  split; [exact Hin |]. split; [exact Hrange |]. split; [exact Hleast |].
  rewrite Hres. cbn [action callOf]. now rewrite map_map.
Qed.

(** X8. A record inserted by SetVersion at a clock reading later than
    every record of the table is what CurrentVersion answers next; the
    earlier records and the tables are kept. *)
Theorem SetVersion_then_CurrentVersion env1 env2 h (t : list row) (v : Z) :
  vtable h = Some t ->
  insert_err env1 = None ->
  (forall r, In r t -> updated_at r < now env1) ->
  create_err env2 = None -> query_err env2 = None ->
  let h' := fst (SetVersion tableName env1 h v) in
  snd (SetVersion tableName env1 h v) = None
  /\ rowsOf h' = t ++ [mkRow v (now env1)]
  /\ tables h' = tables h
  /\ CurrentVersion tableName env2 h' = (h', v, None).
Proof.
  intros Ht Hi Hclock Hc Hq h'. subst h'.
  unfold SetVersion. rewrite Hi, Ht. cbn [fst snd].
  split; [reflexivity |]. split; [reflexivity |]. split; [reflexivity |].
  rewrite (CurrentVersion_ok D tableName _ _ Hc Hq).
  now rewrite (resolved_after_append D _ _ _ _ Hclock).
Qed.

(** X9. A transaction that can begin and commit changes nothing to a run
    that succeeds without one: Up, Down and ToVersion then return the same
    versions, invoke the same functions and leave the same database. *)
Theorem tx_agrees_with_no_tx_on_success env migrations db :
  begin_err env = None -> commit_err env = None ->
  (res_err (Up tableName env migrations db false) = None ->
   Up tableName env migrations db true = Up tableName env migrations db false)
  /\ (res_err (Down tableName env migrations db false) = None ->
      Down tableName env migrations db true = Down tableName env migrations db false)
  /\ (forall v, res_err (ToVersion tableName env migrations db false v) = None ->
                ToVersion tableName env migrations db true v
                = ToVersion tableName env migrations db false v).
Proof.
  intros Hb Hcm.
  assert (Hdir : forall dir db0 old target,
             res_err (directional tableName dir env migrations db0 false old target) = None ->
             directional tableName dir env migrations db0 true old target
             = directional tableName dir env migrations db0 false old target).
  { intros dir db0 old target Hok.
    destruct (pendingOf dir migrations old target) as [| m0 rest] eqn:Hp.
    - now rewrite !(directional_empty D tableName _ _ _ _ _ _ _ Hp).
    - rewrite (directional_nonempty D tableName dir env migrations db0 false
                 old target _ Hp) in Hok |- * by discriminate.
      rewrite (directional_nonempty D tableName dir env migrations db0 true
                 old target _ Hp) by discriminate.
      unfold runUnit, runTx in Hok |- *. rewrite Hb.
      destruct (unitOfWork tableName env dir (m0 :: rest) db0 (mkLocals 0 []))
        as [[h1 st1] [e |]]; [discriminate |].
      now rewrite Hcm. }
  split; [| split].
  - unfold Up. destruct (CurrentVersion tableName env db) as [[db1 old] [e |]];
      [reflexivity |]. apply (Hdir Ascending).
  - unfold Down. destruct (CurrentVersion tableName env db) as [[db1 old] [e |]];
      [reflexivity |]. apply (Hdir Descending).
  - intros v. unfold ToVersion.
    destruct (CurrentVersion tableName env db) as [[db1 old] [e |]];
      [reflexivity |].
    destruct (old =? v); [reflexivity |].
    destruct (existsb (fun m => version m =? v) migrations); [| reflexivity].
    destruct (old <? v); [apply (Hdir Ascending) | apply (Hdir Descending)].
Qed.

(** X10. In a transaction, whenever Up, Down or ToVersion return an error,
    whatever failed (the version query, a step, the insertion of the
    record, begin, commit or rollback), the tables and the records of the
    version table are those before the call. *)
Theorem tx_error_changes_nothing env migrations db :
  (forall e, res_err (Up tableName env migrations db true) = Some e ->
     tables (res_db (Up tableName env migrations db true)) = tables db
     /\ rowsOf (res_db (Up tableName env migrations db true)) = rowsOf db)
  /\ (forall e, res_err (Down tableName env migrations db true) = Some e ->
        tables (res_db (Down tableName env migrations db true)) = tables db
        /\ rowsOf (res_db (Down tableName env migrations db true)) = rowsOf db)
  /\ (forall v e, res_err (ToVersion tableName env migrations db true v) = Some e ->
        tables (res_db (ToVersion tableName env migrations db true v)) = tables db
        /\ rowsOf (res_db (ToVersion tableName env migrations db true v)) = rowsOf db).
Proof.
  split; [| split].
  - intros e. unfold Up.
    destruct (CurrentVersion tableName env db) as [[db1 old] [e1 |]] eqn:E;
      apply CurrentVersion_keeps in E; [auto |].
    intros H.
    pose proof (directional_tx_error_keeps_db D tableName Ascending _ _ _ _ _ _ H) as Hk.
    cbn [directional] in Hk. now rewrite Hk.
  - intros e. unfold Down.
    destruct (CurrentVersion tableName env db) as [[db1 old] [e1 |]] eqn:E;
      apply CurrentVersion_keeps in E; [auto |].
    intros H.
    pose proof (directional_tx_error_keeps_db D tableName Descending _ _ _ _ _ _ H) as Hk.
    cbn [directional] in Hk. now rewrite Hk.
  - intros v e. unfold ToVersion.
    destruct (CurrentVersion tableName env db) as [[db1 old] [e1 |]] eqn:E;
      apply CurrentVersion_keeps in E; [auto |].
    destruct (old =? v); [discriminate |].
    destruct (existsb (fun m => version m =? v) migrations); [| auto].
    destruct (old <? v); intros H.
    + pose proof (directional_tx_error_keeps_db D tableName Ascending _ _ _ _ _ _ H) as Hk.
    cbn [directional] in Hk. now rewrite Hk.
    + pose proof (directional_tx_error_keeps_db D tableName Descending _ _ _ _ _ _ H) as Hk.
    cbn [directional] in Hk. now rewrite Hk.
Qed.

End MovingDownAndAcross.

(* ================================================================== *)
(** ** File names: versionFromFile, Register and Create *)

Section FileNames.

(** *** Strings *)

Lemma append_assoc_str (a b c : string) :
  ((a ++ b) ++ c = a ++ (b ++ c))%string.
Proof. induction a as [| x a IH]; simpl; [reflexivity | now rewrite IH]. Qed.

Lemma length_append_str (a b : string) :
  String.length (a ++ b) = (String.length a + String.length b)%nat.
Proof. induction a as [| x a IH]; simpl; [reflexivity | now rewrite IH]. Qed.

Lemma substring_all (s : string) : substring 0 (String.length s) s = s.
Proof. induction s as [| x s IH]; simpl; [reflexivity | now rewrite IH]. Qed.

Lemma substring_skip (a b : string) (n : nat) :
  substring (String.length a) n (a ++ b) = substring 0 n b.
Proof. induction a as [| x a IH]; simpl; [reflexivity | exact IH]. Qed.

Lemma substring_prefix (a b : string) :
  substring 0 (String.length a) (a ++ b) = a.
Proof. induction a as [| x a IH]; simpl; [now destruct b | now rewrite IH]. Qed.

Lemma HasSuffix_append (s suffix : string) :
  HasSuffix (s ++ suffix) suffix = true.
Proof.
  unfold HasSuffix. rewrite length_append_str.
  apply andb_true_iff. split.
  - apply Nat.leb_le. lia.
  - replace (String.length s + String.length suffix - String.length suffix)%nat
      with (String.length s) by lia.
    rewrite substring_skip, substring_all. apply String.eqb_refl.
Qed.

(** *** Decimal digits *)

Lemma digit_of_bounds (c : ascii) (d : Z) :
  digit_of c = Some d -> 0 <= d <= 9.
Proof.
  unfold digit_of.
  destruct ((48 <=? Z.of_nat (nat_of_ascii c)) && (Z.of_nat (nat_of_ascii c) <=? 57))%bool
    eqn:E; [| discriminate].
  apply andb_true_iff in E. destruct E as [E1 E2].
  apply Z.leb_le in E1. apply Z.leb_le in E2.
  intros H; inversion H; lia.
Qed.

Lemma digit_is_no_mark (c : ascii) (d : Z) :
  digit_of c = Some d ->
  Ascii.eqb c "_" = false /\ Ascii.eqb c "+" = false /\ Ascii.eqb c "-" = false.
Proof.
  intros H.
  assert (Hc : forall x : ascii, (nat_of_ascii x < 48)%nat -> Ascii.eqb c x = false).
  { intros x Hx. apply Ascii.eqb_neq. intros ->.
    unfold digit_of in H.
    replace (48 <=? Z.of_nat (nat_of_ascii x)) with false in H
      by (symmetry; apply Z.leb_gt; lia).
    discriminate. }
  assert (Hu : Ascii.eqb c "_" = false).
  { apply Ascii.eqb_neq. intros ->. vm_compute in H. discriminate. }
  split; [exact Hu |].
  split; apply Hc; vm_compute; lia.
Qed.

Lemma parse_digits_nonneg (s : string) (acc r : Z) :
  0 <= acc -> parse_digits s acc = Some r -> 0 <= r.
Proof.
  revert acc. induction s as [| c s IH]; intros acc Hacc; cbn [parse_digits].
  - intros H; inversion H; lia.
  - destruct (digit_of c) as [d |] eqn:E; [| discriminate].
    apply digit_of_bounds in E. apply IH. lia.
Qed.

Lemma parse_digits_acc (u : Decimal.uint) (p : positive) :
  parse_digits (NilEmpty.string_of_uint u) (Z.pos p)
  = Some (Z.pos (Pos.of_uint_acc u p)).
Proof.
  revert p.
  induction u as [| u IH | u IH | u IH | u IH | u IH | u IH | u IH | u IH | u IH | u IH];
    intros p;
    [reflexivity | ..];
    cbn [NilEmpty.string_of_uint parse_digits Pos.of_uint_acc];
    match goal with
    | |- context [digit_of ?c] =>
        let d := eval vm_compute in (digit_of c) in
        change (digit_of c) with d
    end; cbv beta iota; rewrite <- IH; f_equal; lia.
Qed.

Lemma parse_digits_uint (u : Decimal.uint) :
  parse_digits (NilEmpty.string_of_uint u) 0 = Some (Z.of_N (Pos.of_uint u)).
Proof.
  induction u as [| u IH | u IH | u IH | u IH | u IH | u IH | u IH | u IH | u IH | u IH];
    [reflexivity | exact IH | ..];
    cbn [NilEmpty.string_of_uint parse_digits Pos.of_uint];
    match goal with
    | |- context [digit_of ?c] =>
        let d := eval vm_compute in (digit_of c) in
        change (digit_of c) with d
    end; cbv beta iota; apply parse_digits_acc.
Qed.

Lemma parse_digits_nilzero (u : Decimal.uint) :
  parse_digits (NilZero.string_of_uint u) 0 = Some (Z.of_N (Pos.of_uint u)).
Proof.
  destruct u; [reflexivity | ..];
    match goal with
    | |- parse_digits (NilZero.string_of_uint ?d) 0 = _ =>
        exact (parse_digits_uint d)
    end.
Qed.

(** The digits printed for a number that is not negative read back as
    that number. *)
Lemma parse_digits_itoa (z : Z) :
  0 <= z -> parse_digits (itoa z) 0 = Some z /\ itoa z <> "".
Proof.
  intros Hz. unfold itoa.
  destruct z as [| p | p]; [split; [reflexivity | discriminate] | | lia].
  cbn [Z.to_int NilZero.string_of_int].
  pose proof (parse_digits_nilzero (Pos.to_uint p)) as Hp.
  rewrite DecimalPos.Unsigned.of_to in Hp.
  split; [exact Hp |].
  destruct (Pos.to_uint p); discriminate.
Qed.

Lemma parse_digits_zeros (n : nat) (s : string) :
  parse_digits (zeros n ++ s) 0 = parse_digits s 0.
Proof. induction n as [| n IH]; simpl; [reflexivity | exact IH]. Qed.

Lemma parse_digits_padded (w : nat) (z : Z) :
  0 <= z ->
  parse_digits (pad_zeros w (itoa z)) 0 = Some z /\ pad_zeros w (itoa z) <> "".
Proof.
  intros Hz. destruct (parse_digits_itoa z Hz) as [Hp Hne].
  unfold pad_zeros. rewrite parse_digits_zeros. split; [exact Hp |].
  destruct (zeros (w - String.length (itoa z))); simpl; [exact Hne | discriminate].
Qed.

Lemma ParseInt_digits (s : string) (un : Z) :
  s <> "" -> parse_digits s 0 = Some un -> un < 2 ^ 63 ->
  ParseInt s = Some un.
Proof.
  intros Hne Hp Hlt. destruct s as [| c s]; [contradiction |].
  unfold ParseInt.
  assert (Hc : exists d, digit_of c = Some d).
  { simpl in Hp. destruct (digit_of c) as [d |]; [eauto | discriminate]. }
  destruct Hc as [d Hd]. destruct (digit_is_no_mark _ _ Hd) as (_ & Hplus & Hminus).
  rewrite Hplus, Hminus. cbn [orb].
  unfold ParseUint. rewrite Hp.
  replace (un <? 2 ^ 64) with true by (symmetry; apply Z.ltb_lt; lia).
  cbn [negb andb].
  replace (2 ^ 63 <=? un) with false by (symmetry; apply Z.leb_gt; lia).
  reflexivity.
Qed.

Lemma ParseInt_minus (s : string) (un : Z) :
  s <> "" -> parse_digits s 0 = Some un -> 0 < un <= 2 ^ 63 ->
  ParseInt (String "-" s) = Some (- un).
Proof.
  intros Hne Hp Hr. unfold ParseInt.
  change (Ascii.eqb "-" "-") with true. change (Ascii.eqb "-" "+") with false.
  cbn [orb]. destruct s as [| c s]; [contradiction |].
  unfold ParseUint. rewrite Hp.
  replace (un <? 2 ^ 64) with true by (symmetry; apply Z.ltb_lt; lia).
  cbn [negb andb].
  replace (2 ^ 63 <? un) with false by (symmetry; apply Z.ltb_ge; lia).
  reflexivity.
Qed.

(** %04d followed by strconv.ParseInt gives the number back. *)
Lemma ParseInt_fmt04d (v : Z) : is_int64 v -> ParseInt (fmt04d v) = Some v.
Proof.
  unfold is_int64, min_int64, max_int64. intros Hr. unfold fmt04d.
  destruct (v <? 0) eqn:E.
  - apply Z.ltb_lt in E.
    destruct (parse_digits_padded 3 (- v)) as [Hp Hne]; [lia |].
    rewrite (ParseInt_minus _ _ Hne Hp) by lia. f_equal. lia.
  - apply Z.ltb_ge in E.
    destruct (parse_digits_padded 4 v E) as [Hp Hne].
    apply ParseInt_digits; [exact Hne | exact Hp | lia].
Qed.

Lemma ParseInt_range (s : string) (v : Z) : ParseInt s = Some v -> is_int64 v.
Proof.
  unfold ParseInt, is_int64, min_int64, max_int64.
  destruct s as [| c rest]; [discriminate |].
  set (body := if (Ascii.eqb c "+" || Ascii.eqb c "-")%bool then rest else String c rest).
  unfold ParseUint.
  destruct body as [| b body']; [discriminate |].
  destruct (parse_digits (String b body') 0) as [un |] eqn:Hp; [| discriminate].
  apply parse_digits_nonneg in Hp; [| lia].
  destruct (un <? 2 ^ 64); [| discriminate].
  destruct (Ascii.eqb c "-"); cbn [negb andb].
  - destruct (2 ^ 63 <? un) eqn:E; [discriminate |].
    apply Z.ltb_ge in E. intros H; inversion H; lia.
  - destruct (2 ^ 63 <=? un) eqn:E; [discriminate |].
    apply Z.leb_gt in E. intros H; inversion H; lia.
Qed.

End FileNames.

Section CreatedFiles.

Variable D : Type.

Implicit Types (migrations : list (migration D)).

Lemma IndexRune_from_digits (s rest : string) (acc r i : Z) :
  parse_digits s acc = Some r ->
  IndexRune_from (s ++ String "_" rest) "_" i = i + Z.of_nat (String.length s).
Proof.
  revert acc i. induction s as [| c s IH]; intros acc i; cbn [parse_digits].
  - intros _. simpl. lia.
  - destruct (digit_of c) as [d |] eqn:E; [| discriminate].
    destruct (digit_is_no_mark _ _ E) as (Hu & _ & _).
    intros Hp. cbn [append IndexRune_from String.length]. rewrite Hu.
    rewrite (IH _ _ Hp). lia.
Qed.

Lemma IndexRune_fmt04d (v : Z) (rest : string) :
  is_int64 v ->
  IndexRune (fmt04d v ++ String "_" rest) "_" = Z.of_nat (String.length (fmt04d v)).
Proof.
  unfold is_int64, min_int64, max_int64. intros Hr. unfold IndexRune, fmt04d.
  destruct (v <? 0) eqn:E.
  - apply Z.ltb_lt in E.
    destruct (parse_digits_padded 3 (- v)) as [Hp _]; [lia |].
    cbn [append IndexRune_from String.length].
    change (Ascii.eqb "-" "_") with false. cbv iota.
    rewrite (IndexRune_from_digits _ _ _ _ _ Hp). lia.
  - apply Z.ltb_ge in E.
    destruct (parse_digits_padded 4 v E) as [Hp _].
    rewrite (IndexRune_from_digits _ _ _ _ _ Hp). lia.
Qed.

Lemma versionFromFile_fmt04d (v : Z) (name : string) :
  is_int64 v ->
  versionFromFile (fmt04d v ++ "_" ++ name ++ ".go") = (v, None).
Proof.
  intros Hr. unfold versionFromFile.
  assert (Hs : HasSuffix (fmt04d v ++ "_" ++ name ++ ".go") ".go" = true).
  { rewrite <- (append_assoc_str "_" name ".go").
    rewrite <- (append_assoc_str (fmt04d v) ("_" ++ name) ".go").
    apply HasSuffix_append. }
  rewrite Hs. cbn [negb].
  change ("_" ++ name ++ ".go")%string with (String "_" (name ++ ".go")).
  rewrite (IndexRune_fmt04d _ _ Hr).
  replace (0 <=? Z.of_nat (String.length (fmt04d v))) with true
    by (symmetry; apply Z.leb_le; lia).
  unfold slice_to. rewrite Nat2Z.id, substring_prefix.
  now rewrite (ParseInt_fmt04d _ Hr).
Qed.

Lemma wrap64_is_int64 (z : Z) : is_int64 (wrap64 z).
Proof.
  unfold is_int64, min_int64, max_int64, wrap64.
  pose proof (Z.mod_pos_bound (z + 2 ^ 63) (2 ^ 64) ltac:(lia)). lia.
Qed.

(** X11. The name Create gives to a new file is one versionFromFile
    reads back: its version is the last version plus one (wrapped into
    int64), whatever the name given by the caller. *)
Theorem created_name_reads_back (lastVersion : Z) (name : string) :
  versionFromFile (migrationFileName lastVersion name)
  = (wrap64 (lastVersion + 1), None)
  /\ (min_int64 <= lastVersion + 1 <= max_int64 ->
      versionFromFile (migrationFileName lastVersion name) = (lastVersion + 1, None)).
Proof.
  assert (H : versionFromFile (migrationFileName lastVersion name)
              = (wrap64 (lastVersion + 1), None)).
  { unfold migrationFileName. apply versionFromFile_fmt04d, wrap64_is_int64. }
  split; [exact H |].
  intros Hr. rewrite H. f_equal.
  unfold min_int64, max_int64 in Hr. unfold wrap64.
  rewrite Z.mod_small by lia. lia.
Qed.

(** A path that starts with a slash has no version: the text before its
    first underscore is not a number. *)
Lemma IndexRune_from_lower (s : string) (c : ascii) (i : Z) :
  IndexRune_from s c i = -1 \/ i <= IndexRune_from s c i.
Proof.
  revert i. induction s as [| x s IH]; intros i; simpl; [now left |].
  destruct (Ascii.eqb x c); [right; lia |].
  destruct (IH (i + 1)) as [-> | H]; [now left | right; lia].
Qed.

Lemma versionFromFile_rooted (rest : string) :
  exists e, versionFromFile (String "/" rest) = (0, Some e).
Proof.
  unfold versionFromFile.
  destruct (negb (HasSuffix (String "/" rest) ".go")); [eauto |].
  unfold IndexRune. cbn [IndexRune_from].
  change (Ascii.eqb "/" "_") with false. cbv iota.
  destruct (0 <=? IndexRune_from rest "_" (0 + 1)) eqn:E; [| eauto].
  apply Z.leb_le in E.
  destruct (IndexRune_from_lower rest "_" (0 + 1)) as [H | H]; [lia |].
  unfold slice_to.
  destruct (Z.to_nat (IndexRune_from rest "_" (0 + 1))) as [| n] eqn:En; [lia |].
  cbn [substring]. unfold ParseInt.
  change (Ascii.eqb "/" "+") with false. change (Ascii.eqb "/" "-") with false.
  cbn [orb]. unfold ParseUint. cbn [parse_digits].
  change (digit_of "/") with (@None Z). eauto.
Qed.

Lemma lastVersionOf_rooted (matches : list string) :
  Forall (fun p => exists rest, p = String "/" rest) matches ->
  lastVersionOf matches = 0.
Proof.
  intros Hall. unfold lastVersionOf.
  replace (flat_map _ matches) with (@nil (migration Empty_set)); [reflexivity |].
  symmetry. induction Hall as [| p l (rest & ->) Hl IH]; [reflexivity |].
  cbn [flat_map]. destruct (versionFromFile_rooted rest) as [e ->].
  exact IH.
Qed.

Lemma Create_returns (fs : FileSystem) (path name f : string) (err : option string) :
  Create fs path name = Returned (f, err) ->
  (err <> None /\ f = "")
  \/ (err = None
      /\ exists dir matches,
           fs_glob fs dir = inl matches
           /\ f = migrationFileName (lastVersionOf matches) name).
Proof.
  unfold Create.
  destruct (fs_abs fs (if String.eqb path "" then "migrations" else path))
    as [dir |]; [| intros H; inversion H; left; split; [discriminate | reflexivity]].
  assert (Hw : match fs_glob fs dir with
               | inl matches =>
                   match fs_write fs dir (migrationFileName (lastVersionOf matches) name) with
                   | Some e => Returned ("", Some ("unable to create migration file: " ++ e)%string)
                   | None => Returned (migrationFileName (lastVersionOf matches) name, None)
                   end
               | inr e =>
                   Returned ("", Some ("unable to get list of migrations directory files: " ++ e)%string)
               end = Returned (f, err) ->
               (err <> None /\ f = "")
               \/ (err = None
                   /\ exists dir matches,
                        fs_glob fs dir = inl matches
                        /\ f = migrationFileName (lastVersionOf matches) name)).
  { destruct (fs_glob fs dir) as [matches | e] eqn:G.
    - destruct (fs_write fs dir (migrationFileName (lastVersionOf matches) name)).
      + intros H; inversion H. left. split; [discriminate | reflexivity].
      + intros H; inversion H. right. split; [reflexivity |]. eauto.
    - intros H; inversion H. left. split; [discriminate | reflexivity]. }
  destruct (fs_stat fs dir).
  - destruct (fs_mkdir fs dir); [| exact Hw].
    intros H; inversion H. left. split; [discriminate | reflexivity].
  - exact Hw.
  - intros H; inversion H. left. split; [discriminate | reflexivity].
  - discriminate.
Qed.

(** X12. Whenever Create returns, it returns an error and no name, or no
    error and a name that versionFromFile reads back, with the version of
    the last match plus one. *)
Theorem Create_names_a_valid_file (fs : FileSystem) (path name f : string)
        (err : option string) :
  Create fs path name = Returned (f, err) ->
  (err <> None /\ f = "")
  \/ (err = None
      /\ exists dir matches,
           fs_glob fs dir = inl matches
           /\ versionFromFile f = (wrap64 (lastVersionOf matches + 1), None)).
Proof.
  intros H. apply Create_returns in H.
  destruct H as [H | (He & dir & matches & Hg & ->)]; [now left |].
  right. split; [exact He |]. exists dir, matches. split; [exact Hg |].
  unfold migrationFileName. apply versionFromFile_fmt04d, wrap64_is_int64.
Qed.

(** X13. The matches of the glob are paths under the absolute migrations
    directory, so none of them gives a version: whatever files the
    directory holds, the name Create returns is 0001_NAME.go. *)
Theorem Create_on_absolute_matches (fs : FileSystem) (path name f : string) :
  (forall dir matches,
      fs_glob fs dir = inl matches ->
      Forall (fun p => exists rest, p = String "/" rest) matches) ->
  Create fs path name = Returned (f, None) ->
  f = ("0001_" ++ name ++ ".go")%string.
Proof.
  intros Habs H. apply Create_returns in H.
  destruct H as [[Hne _] | (_ & dir & matches & Hg & ->)]; [congruence |].
  rewrite (lastVersionOf_rooted _ (Habs _ _ Hg)). reflexivity.
Qed.

End CreatedFiles.

Section Registering.

Variable D : Type.

Implicit Types (m : migration D) (migrations : list (migration D)).

Lemma versionFromFile_accepts (f : string) (v : Z) :
  versionFromFile f = (v, None) -> HasSuffix f ".go" = true /\ is_int64 v.
Proof.
  unfold versionFromFile.
  destruct (HasSuffix f ".go"); cbn [negb]; [| discriminate].
  destruct (0 <=? IndexRune f "_"); [| discriminate].
  destruct (ParseInt (slice_to f (IndexRune f "_"))) as [w |] eqn:E;
    [| discriminate].
  intros H; inversion H; subst. split; [reflexivity |].
  exact (ParseInt_range _ _ E).
Qed.

Lemma find_version_none (v : Z) migrations :
  find (fun m => version m =? v) migrations = None <->
  ~ In v (map version migrations).
Proof.
  split.
  - intros Hf Hin. apply in_map_iff in Hin. destruct Hin as (m & Hv & Hin).
    pose proof (find_none _ _ Hf m Hin) as H. cbv beta in H.
    apply Z.eqb_neq in H. congruence.
  - intros Hnot. induction migrations as [| a l IH]; [reflexivity |].
    cbn [find]. destruct (version a =? v) eqn:E.
    + apply Z.eqb_eq in E. exfalso. apply Hnot. left. exact E.
    + apply IH. intros Hin. apply Hnot. now right.
Qed.

(** X14. Register keeps the registry well formed and only ever appends:
    when it returns, both functions were given, the registry is the old
    one followed by one step whose label is the base name of the caller's
    file and whose version is read from that label, and versions remain
    distinct, not negative and within int64, labels ending in .go. *)
Theorem Register_keeps_registryOK (u d : option (MigrationFunc D))
        (callerFile : string) migrations migrations' :
  registryOK migrations ->
  Register u d callerFile migrations = Returned migrations' ->
  registryOK migrations'
  /\ exists u' d' v,
       u = Some u' /\ d = Some d'
       /\ versionFromFile (Base callerFile) = (v, None)
       /\ migrations' = migrations ++ [mkMigration v u' d' (Base callerFile)].
Proof.
  intros [Hnd Hall]. unfold Register.
  destruct u as [u' |]; [| discriminate].
  destruct d as [d' |]; [| discriminate].
  destruct (versionFromFile (Base callerFile)) as [v [e |]] eqn:Ev;
    [discriminate |].
  destruct (versionFromFile_accepts _ _ Ev) as [Hs Hr].
  destruct (v <? 0) eqn:Eneg; [discriminate |]. apply Z.ltb_ge in Eneg.
  destruct (find (fun m => version m =? v) migrations) eqn:Ef; [discriminate |].
  apply find_version_none in Ef.
  intros H; inversion H; subst. clear H.
  split; [| exists u', d', v; auto].
  split.
  - rewrite map_app. cbn [map version].
    apply NoDup_app; [exact Hnd | repeat constructor; intros [] |].
    intros a Ha [<- | []]. contradiction.
  - apply Forall_app. split; [exact Hall |].
    constructor; [| constructor]. cbn [version file].
    unfold is_int64 in Hr. split; [lia | exact Hs].
Qed.

(** *** From Create to Register *)

Lemma list_ascii_of_append (a b : string) :
  list_ascii_of_string (a ++ b)
  = list_ascii_of_string a ++ list_ascii_of_string b.
Proof. induction a as [| x a IH]; simpl; [reflexivity | now rewrite IH]. Qed.

Lemma noSlash_append (a b : string) :
  noSlash (a ++ b) = (noSlash a && noSlash b)%bool.
Proof.
  induction a as [| x a IH]; simpl; [reflexivity |].
  rewrite IH. now rewrite andb_assoc.
Qed.

Lemma noSlash_chars (s : string) :
  noSlash s = true ->
  Forall (fun c => Ascii.eqb c "/" = false) (list_ascii_of_string s).
Proof.
  induction s as [| x s IH]; simpl; [constructor |].
  intros H. apply andb_true_iff in H. destruct H as [H1 H2].
  constructor; [now apply negb_true_iff | now apply IH].
Qed.

Lemma take_element_whole (l rest : list ascii) :
  Forall (fun c => Ascii.eqb c "/" = false) l ->
  take_element (l ++ "/"%char :: rest) = l.
Proof.
  induction 1 as [| c l Hc Hl IH]; simpl; [reflexivity |].
  rewrite Hc. now rewrite IH.
Qed.

Lemma drop_slashes_none (l : list ascii) :
  Forall (fun c => Ascii.eqb c "/" = false) l -> l <> [] ->
  forall rest, drop_slashes (l ++ rest) = l ++ rest.
Proof.
  intros Hall Hne rest. destruct Hall as [| c l Hc Hl]; [contradiction |].
  simpl. now rewrite Hc.
Qed.

(** filepath.Base of a directory joined to a plain file name. *)
Lemma Base_join (dir f : string) :
  f <> "" -> noSlash f = true -> Base (dir ++ "/" ++ f) = f.
Proof.
  intros Hne Hns. unfold Base.
  assert (Hpath : String.eqb (dir ++ "/" ++ f) "" = false).
  { apply String.eqb_neq. destruct dir; discriminate. }
  rewrite Hpath.
  rewrite list_ascii_of_append.
  change (list_ascii_of_string ("/" ++ f))
    with ("/"%char :: list_ascii_of_string f).
  rewrite rev_app_distr. cbn [rev]. rewrite <- app_assoc. cbn [app].
  pose proof (noSlash_chars _ Hns) as Hall.
  assert (Hrev : Forall (fun c => Ascii.eqb c "/" = false)
                        (rev (list_ascii_of_string f))).
  { apply Forall_forall. intros c Hc. apply in_rev in Hc.
    rewrite Forall_forall in Hall. now apply Hall. }
  assert (Hrne : rev (list_ascii_of_string f) <> []).
  { intros E. apply (f_equal (@rev ascii)) in E. rewrite rev_involutive in E.
    cbn in E. apply (f_equal string_of_list_ascii) in E.
    rewrite string_of_list_ascii_of_string in E. contradiction. }
  rewrite (drop_slashes_none _ Hrev Hrne).
  rewrite (take_element_whole _ _ Hrev).
  rewrite rev_involutive, string_of_list_ascii_of_string.
  now rewrite (proj2 (String.eqb_neq _ _) Hne).
Qed.

Lemma parse_digits_noSlash (s : string) (acc r : Z) :
  parse_digits s acc = Some r -> noSlash s = true.
Proof.
  revert acc. induction s as [| c s IH]; intros acc; cbn [parse_digits noSlash];
    [reflexivity |].
  destruct (digit_of c) as [d |] eqn:E; [| discriminate].
  intros Hp. rewrite (IH _ Hp), andb_true_r. apply negb_true_iff.
  apply Ascii.eqb_neq. intros ->. vm_compute in E. discriminate.
Qed.

Lemma fmt04d_plain (v : Z) : fmt04d v <> "" /\ noSlash (fmt04d v) = true.
Proof.
  unfold fmt04d. destruct (v <? 0) eqn:E.
  - apply Z.ltb_lt in E.
    destruct (parse_digits_padded 3 (- v)) as [Hp _]; [lia |].
    split; [discriminate |]. cbn [noSlash].
    now rewrite (parse_digits_noSlash _ _ _ Hp).
  - apply Z.ltb_ge in E.
    destruct (parse_digits_padded 4 v E) as [Hp Hne].
    split; [exact Hne | exact (parse_digits_noSlash _ _ _ Hp)].
Qed.

(** X15. From Create to Register: a file named by Create for the name
    NAME (without path separator) after the last version L, once it calls
    Register from the directory it was written to, adds the step of
    version L + 1 to the registry, provided that version is not negative,
    fits int64 and is not registered yet. *)
Theorem Register_from_created_file (u d : MigrationFunc D)
        (dir name : string) (lastVersion : Z) migrations :
  noSlash name = true ->
  0 <= lastVersion + 1 <= max_int64 ->
  ~ In (lastVersion + 1) (map version migrations) ->
  Register (Some u) (Some d) (dir ++ "/" ++ migrationFileName lastVersion name)
           migrations
  = Returned (migrations
              ++ [mkMigration (lastVersion + 1) u d
                              (migrationFileName lastVersion name)]).
Proof.
  intros Hname Hr Hnew.
  assert (Hbase : Base (dir ++ "/" ++ migrationFileName lastVersion name)
                  = migrationFileName lastVersion name).
  { unfold migrationFileName.
    destruct (fmt04d_plain (wrap64 (lastVersion + 1))) as [Hne Hns].
    apply Base_join.
    - destruct (fmt04d (wrap64 (lastVersion + 1))); [contradiction | discriminate].
    - rewrite !noSlash_append, Hns, Hname. reflexivity. }
  assert (Hv : versionFromFile (migrationFileName lastVersion name)
               = (lastVersion + 1, None)).
  { unfold migrationFileName.
    replace (wrap64 (lastVersion + 1)) with (lastVersion + 1).
    - apply versionFromFile_fmt04d. unfold is_int64, min_int64. lia.
    - unfold wrap64, max_int64 in *. rewrite Z.mod_small by lia. lia. }
  rewrite <- Hbase at 2.
  apply Register_accepts.
  - now rewrite Hbase.
  - lia.
  - now apply find_version_none.
Qed.

End Registering.

(* ================================================================== *)
(** ** util.go *)

Section Statements.

Variable D : Type.
Variable exec : string -> D -> D * option string.

Lemma ExecAll_app (pre post : list string) (d : D) :
  ExecAll exec (pre ++ post) d
  = match ExecAll exec pre d with
    | (d1, None) => ExecAll exec post d1
    | failed => failed
    end.
Proof.
  revert d. induction pre as [| s pre IH]; intros d; simpl; [reflexivity |].
  destruct (exec s d) as [d1 [e |]]; [reflexivity | apply IH].
Qed.

(** X16. ExecAll stops at the first statement that fails: when the
    statements before it succeed and it fails, the result is the state it
    left and its error, unchanged, whatever statements follow; they are
    not executed. *)
Theorem ExecAll_stops_at_first_error
        (pre post : list string) (stmt : string) (d d1 d2 : D) (e : string) :
  ExecAll exec pre d = (d1, None) ->
  exec stmt d1 = (d2, Some e) ->
  ExecAll exec (pre ++ stmt :: post) d = (d2, Some e)
  /\ ExecAll exec (pre ++ stmt :: post) d = ExecAll exec (pre ++ [stmt]) d.
Proof.
  intros Hpre Hs.
  rewrite !ExecAll_app, Hpre. simpl. rewrite Hs. auto.
Qed.

(** X17. ExecAll on two lists of statements in a row is ExecAll on the
    first and, if it succeeds, ExecAll on the second from the state
    reached; and DropAll is ExecAll on the DROP TABLE statements of the
    tables. *)
Theorem ExecAll_composes_and_DropAll (stmts1 stmts2 tbls : list string) (d : D) :
  ExecAll exec (stmts1 ++ stmts2) d
  = match ExecAll exec stmts1 d with
    | (d1, None) => ExecAll exec stmts2 d1
    | failed => failed
    end
  /\ DropAll exec tbls d
     = ExecAll exec (map (fun t => "DROP TABLE " ++ t)%string tbls) d.
Proof.
  split; [apply ExecAll_app |].
  revert d. induction tbls as [| t tbls IH]; intros d; [reflexivity |].
  cbn [DropAll map ExecAll].
  destruct (exec ("DROP TABLE " ++ t) d) as [d1 [e |]]; [reflexivity | apply IH].
Qed.

End Statements.

(* ================================================================== *)
(** ** The further properties on the inputs of mig_test.go *)

(** TestUp_FromStartpoint: versions 1..3 registered, database at 1. *)
Lemma Up_success_reaches_highest_witness :
  let r := Up (engine := stable_engine) defaultTableName (quiet 100)
              (generateMigrations 3) (mkDatabase [] (Some [mkRow 1 50])) true in
  res_old r = 1
  /\ 1 < res_new r
  /\ In (res_new r) [1; 2; 3]
  /\ (forall m, In m (generateMigrations 3) -> version m <= res_new r)
  /\ (forall m, In m (pendingUp (generateMigrations 3) 1 max_int64)
                <-> In m (generateMigrations 3) /\ 1 < version m)
  /\ res_calls r = [CallUp 2; CallUp 3]
  /\ tables (res_db r) = [(2, 0); (3, 0)]
  /\ rowsOf (res_db r) = [mkRow 1 50; mkRow (res_new r) 100].
Proof.
  apply (Up_success_reaches_highest runLog defaultTableName (engine := stable_engine)
           (quiet 100) (generateMigrations 3)
           (mkDatabase [] (Some [mkRow 1 50])) true).
  - intros m [<- | [<- | [<- | []]]]; vm_compute; discriminate.
  - reflexivity.
Defined.

(** TestUp, then Up once more a hundred seconds later. *)
Lemma Up_again_is_NoWork_witness :
  let r1 := Up (engine := stable_engine) defaultTableName (quiet 100)
               (generateMigrations 3) freshDB true in
  Up (engine := stable_engine) defaultTableName (quiet 200)
     (generateMigrations 3) (res_db r1) true
  = mkResult (res_db r1) [] 3 0 (Some "no transactions to run").
Proof.
  apply (Up_again_is_NoWork runLog defaultTableName (engine := stable_engine)
           (quiet 100) (quiet 200) (generateMigrations 3) freshDB true true).
  - intros m [<- | [<- | [<- | []]]]; vm_compute; discriminate.
  - intros r [].
  - reflexivity.
  - reflexivity.
  - reflexivity.
Defined.

(** TestDown: versions 1..3 registered, database at 3. *)
Lemma Down_success_undoes_current_witness :
  let db := mkDatabase ([] : runLog) (Some [mkRow 3 50]) in
  let r := Down (engine := stable_engine) defaultTableName (quiet 100)
                (generateMigrations 3) db true in
  exists m,
    In m (generateMigrations 3) /\ version m = 3
    /\ r = mkResult
             (mkDatabase (fst (down m [])) (Some [mkRow 3 50; mkRow 3 100]))
             [CallDown 3] 3 2 None
    /\ ((forall r0, In r0 [mkRow 3 50] -> updated_at r0 < 100) ->
        resolved (engine := stable_engine) (res_db r) = 3).
Proof.
  apply (Down_success_undoes_current runLog defaultTableName (engine := stable_engine)
           (quiet 100) (generateMigrations 3)
           (mkDatabase [] (Some [mkRow 3 50])) true).
  - simpl. repeat constructor; simpl; intuition discriminate.
  - vm_compute. split; discriminate.
  - reflexivity.
Defined.

(** TestToVersion, "up": from version 1 to version 3. *)
Lemma ToVersion_up_success_witness :
  In 3 (map version (generateMigrations 3))
  /\ ToVersion (engine := stable_engine) defaultTableName (quiet 100)
       (generateMigrations 3) (mkDatabase [] (Some [mkRow 1 50])) true 3
     = mkResult (mkDatabase [(2, 0); (3, 0)] (Some [mkRow 1 50; mkRow 3 100]))
                [CallUp 2; CallUp 3] 1 3 None.
Proof.
  apply (ToVersion_up_success runLog defaultTableName (engine := stable_engine)
           (quiet 100) (generateMigrations 3)
           (mkDatabase [] (Some [mkRow 1 50])) true 3).
  - reflexivity.
  - reflexivity.
Defined.

(** Versions 1 and 3 registered, database at 3, target 1: the step undone
    is 3, the version reported is 2 and the record carries 3. *)
Lemma ToVersion_down_success_witness :
  let registry := [testMigration 1 None; testMigration 3 None] in
  let db := mkDatabase ([] : runLog) (Some [mkRow 3 50]) in
  exists w,
    In w [1; 3] /\ 1 < w <= 3
    /\ (forall m, In m registry -> 1 < version m <= 3 -> w <= version m)
    /\ ToVersion (engine := stable_engine) defaultTableName (quiet 100)
         registry db true 1
       = mkResult (mkDatabase [(3, 1)] (Some [mkRow 3 50; mkRow w 100]))
                  [CallDown 3] 3 (wrap64 (w - 1)) None.
Proof.
  apply (ToVersion_down_success runLog defaultTableName (engine := stable_engine)
           (quiet 100) [testMigration 1 None; testMigration 3 None]
           (mkDatabase [] (Some [mkRow 3 50])) true 1).
  - reflexivity.
  - reflexivity.
Defined.

(** initTest at version 3, then SetVersion 2 fifty seconds later. *)
Lemma SetVersion_then_CurrentVersion_witness :
  let h := mkDatabase ([] : runLog) (Some [mkRow 3 50]) in
  let h' := fst (SetVersion defaultTableName (quiet 100) h 2) in
  snd (SetVersion defaultTableName (quiet 100) h 2) = None
  /\ rowsOf h' = [mkRow 3 50; mkRow 2 100]
  /\ tables h' = []
  /\ CurrentVersion (engine := stable_engine) defaultTableName (quiet 101) h'
     = (h', 2, None).
Proof.
  apply (SetVersion_then_CurrentVersion runLog defaultTableName (engine := stable_engine)
           (quiet 100) (quiet 101)
           (mkDatabase [] (Some [mkRow 3 50])) [mkRow 3 50] 2).
  - reflexivity.
  - reflexivity.
  - intros r [<- | []]. reflexivity.
  - reflexivity.
  - reflexivity.
Defined.

(** TestUp with and without a transaction. *)
Lemma tx_agrees_with_no_tx_on_success_witness :
  Up (engine := stable_engine) defaultTableName (quiet 100)
     (generateMigrations 3) freshDB true
  = Up (engine := stable_engine) defaultTableName (quiet 100)
       (generateMigrations 3) freshDB false.
Proof.
  destruct (tx_agrees_with_no_tx_on_success runLog defaultTableName
              (engine := stable_engine) (quiet 100) (generateMigrations 3) freshDB
              eq_refl eq_refl) as (Hup & _).
  apply Hup. reflexivity.
Defined.

(** TestCreate, "create non-first migration". *)
Lemma Create_names_a_valid_file_witness :
  (@None string <> None /\ "0001_foo.go" = "")
  \/ (@None string = None
      /\ exists dir matches,
           fs_glob testFS dir = inl matches
           /\ versionFromFile "0001_foo.go"
              = (wrap64 (lastVersionOf matches + 1), None)).
Proof.
  exact (Create_names_a_valid_file testFS "dir" "foo" "0001_foo.go" None eq_refl).
Defined.

Lemma Create_on_absolute_matches_witness :
  "0001_foo.go" = ("0001_" ++ "foo" ++ ".go")%string.
Proof.
  apply (Create_on_absolute_matches testFS "dir" "foo" "0001_foo.go").
  - intros dir matches H. injection H as <-.
    repeat constructor; eexists; reflexivity.
  - reflexivity.
Defined.

(** TestRegister_Valid, first call. *)
Lemma Register_keeps_registryOK_witness :
  registryOK [mkMigration 1 emptyMigrationFunc emptyMigrationFunc "0001_foo.go"]
  /\ exists u' d' v,
       Some emptyMigrationFunc = Some u' /\ Some emptyMigrationFunc = Some d'
       /\ versionFromFile (Base "/0001_foo.go") = (v, None)
       /\ [mkMigration 1 emptyMigrationFunc emptyMigrationFunc "0001_foo.go"]
          = [] ++ [mkMigration v u' d' (Base "/0001_foo.go")].
Proof.
  apply (Register_keeps_registryOK runLog
           (Some emptyMigrationFunc) (Some emptyMigrationFunc) "/0001_foo.go" []).
  - split; constructor.
  - reflexivity.
Defined.

(** The third file of a directory: named by Create after version 2, then
    registered. *)
Lemma Register_from_created_file_witness :
  Register (Some emptyMigrationFunc) (Some emptyMigrationFunc)
           "/tmp/test-mig/dir/0003_foo.go" []
  = Returned [mkMigration 3 emptyMigrationFunc emptyMigrationFunc "0003_foo.go"].
Proof.
  apply (Register_from_created_file runLog emptyMigrationFunc emptyMigrationFunc
           "/tmp/test-mig/dir" "foo" 2 []).
  - reflexivity.
  - vm_compute. split; discriminate.
  - intros [].
Defined.

(** Three statements, the second one rejected. *)
Lemma ExecAll_stops_at_first_error_witness :
  ExecAll logExec ["CREATE TABLE a"; "BAD"; "CREATE TABLE b"] []
  = (["CREATE TABLE a"], Some "syntax error")
  /\ ExecAll logExec ["CREATE TABLE a"; "BAD"; "CREATE TABLE b"] []
     = ExecAll logExec ["CREATE TABLE a"; "BAD"] [].
Proof.
  exact (ExecAll_stops_at_first_error (list string) logExec
           ["CREATE TABLE a"] ["CREATE TABLE b"] "BAD"
           [] ["CREATE TABLE a"] ["CREATE TABLE a"] "syntax error"
           eq_refl eq_refl).
Defined.

(* ================================================================== *)
(** ** Failures around the steps *)

Section AroundTheSteps.

Variable D : Type.
Variable tableName : string.

Implicit Types (db h : Database D) (m : migration D) (env : Env).
Implicit Types (migrations pending : list (migration D)).



End AroundTheSteps.

(** X20. Create panics exactly when the migrations directory has an
    absolute path and os.Stat fails on it with an error other than
    'does not exist'; in every other case it returns. *)
Theorem Create_panics_iff (fs : FileSystem) (path name : string) :
  (exists msg, Create fs path name = Panicked msg)
  <-> exists dir,
        fs_abs fs (if String.eqb path "" then "migrations" else path) = Some dir
        /\ fs_stat fs dir = StatFailed.
Proof.
  unfold Create.
  destruct (fs_abs fs (if String.eqb path "" then "migrations" else path))
    as [dir |].
  - assert (Hw : forall msg,
               match fs_glob fs dir with
               | inl matches =>
                   match fs_write fs dir (migrationFileName (lastVersionOf matches) name) with
                   | Some e => Returned ("", Some ("unable to create migration file: " ++ e)%string)
                   | None => Returned (migrationFileName (lastVersionOf matches) name, None)
                   end
               | inr e =>
                   Returned ("", Some ("unable to get list of migrations directory files: " ++ e)%string)
               end <> Panicked msg).
    { intros msg. destruct (fs_glob fs dir) as [matches | e]; [| discriminate].
      destruct (fs_write fs dir (migrationFileName (lastVersionOf matches) name));
        discriminate. }
    destruct (fs_stat fs dir) eqn:Es.
    + split.
      * intros [msg H]. destruct (fs_mkdir fs dir); [discriminate |].
        exfalso. exact (Hw msg H).
      * intros (dir' & Hd & Hs). injection Hd as <-. congruence.
    + split.
      * intros [msg H]. exfalso. exact (Hw msg H).
      * intros (dir' & Hd & Hs). injection Hd as <-. congruence.
    + split.
      * intros [msg H]. discriminate.
      * intros (dir' & Hd & Hs). injection Hd as <-. congruence.
    + split; [intros _; eauto | intros _; eauto].
  - split.
    + intros [msg H]. discriminate.
    + intros (dir & Hd & _). discriminate.
Qed.



(** Versions 2 and 3 registered twice each, out of order, with version 1:
    the pending sets of the range (1, 3] hold each of them twice. *)
Lemma pending_sets_by_range_witness :
  let a2 := testMigration 2 None in
  let b2 := mkMigration 2 emptyMigrationFunc emptyMigrationFunc "2_bis.go" in
  let a3 := testMigration 3 None in
  let b3 := mkMigration 3 emptyMigrationFunc emptyMigrationFunc "3_bis.go" in
  let registry := [a3; b2; testMigration 1 None; a2; b3] in
  pendingUp registry 1 3 = [b2; a2; a3; b3]
  /\ pendingDown registry 3 1 = [b3; a3; a2; b2]
  /\ Permutation (pendingUp registry 1 3) [a3; b2; a2; b3]
  /\ filter (fun x => version x =? 2) (pendingUp registry 1 3) = [b2; a2]
  /\ filter (fun x => version x =? 2) (pendingDown registry 3 1) = [a2; b2].
Proof.
  intros a2 b2 a3 b3 registry.
  destruct (pending_sets_by_range runLog registry 1 3)
    as (_ & _ & _ & _ & _ & Hperm & _ & Hties & _).
  destruct (pending_sets_by_range runLog registry 3 1)
    as (_ & _ & _ & _ & _ & _ & _ & _ & Hdown).
  split; [reflexivity |]. split; [reflexivity |].
  split; [exact Hperm |].
  split; [exact (Hties 2) | exact (Hdown 2)].
Defined.
